(** * Promptify: the JSON completion parser ([promptify/parser/parser.py])

    A shallow embedding of [class Parser] and its methods
    [is_valid_json], [get_combinations], [complete_json_object],
    [get_possible_completions], [fit], [find_max_length] and
    [extract_complete_objects], followed by the properties of the
    specification that were checked against them.

    Python strings are modelled as [string] (code points below 256), Python
    integers as [Z], lists as [list], dictionaries as association lists in
    insertion order.  Code that can raise is written in the [outcome] monad
    below, whose [try_except] follows the [except] clauses of the source. *)

From Stdlib Require Import List Bool Arith ZArith Lia Ascii String.
From Stdlib Require Import Sorting.Sorted Sorting.Permutation Lists.Finite.
From Stdlib Require Import Numbers.DecimalString.
Import ListNotations.

Set Warnings "-register-all,-non-full-mutual".

Local Open Scope string_scope.
Local Open Scope list_scope.

(* ================================================================== *)
(** ** Python values and exceptions *)

(** The Python objects the parser handles: what [json.loads], [eval] and
    [ast.literal_eval] produce on the literals covered here. *)
Inductive value : Type :=
| VNone
| VBool (b : bool)
| VInt (z : Z)
| VStr (s : string)
| VList (items : list value)
| VDict (entries : list (value * value)).

(** [type(output)], stored by [fit] under ["object_type"]. *)
Inductive pytype : Type :=
| NoneType | BoolType | IntType | StrType | ListType | DictType.

Definition type_of (v : value) : pytype :=
  match v with
  | VNone => NoneType
  | VBool _ => BoolType
  | VInt _ => IntType
  | VStr _ => StrType
  | VList _ => ListType
  | VDict _ => DictType
  end.

(** The exception classes that occur, with the two roots of the class tree. *)
Inductive exn_class : Type :=
| BaseException | Exception
| SystemExit | KeyboardInterrupt
| SyntaxError | NameError | TypeError | ValueError | JSONDecodeError
| IndexError | StopIteration.

Definition exn_class_eqb (c d : exn_class) : bool :=
  match c, d with
  | BaseException, BaseException | Exception, Exception
  | SystemExit, SystemExit | KeyboardInterrupt, KeyboardInterrupt
  | SyntaxError, SyntaxError | NameError, NameError
  | TypeError, TypeError | ValueError, ValueError
  | JSONDecodeError, JSONDecodeError
  | IndexError, IndexError | StopIteration, StopIteration => true
  | _, _ => false
  end.

(** The base class of each class ([json.JSONDecodeError] derives from
    [ValueError]; [SystemExit] and [KeyboardInterrupt] derive from
    [BaseException] directly). *)
Definition base_of (c : exn_class) : option exn_class :=
  match c with
  | BaseException => None
  | Exception | SystemExit | KeyboardInterrupt => Some BaseException
  | JSONDecodeError => Some ValueError
  | SyntaxError | NameError | TypeError | ValueError
  | IndexError | StopIteration => Some Exception
  end.

Fixpoint issubclass_fuel (fuel : nat) (c d : exn_class) : bool :=
  exn_class_eqb c d ||
  match fuel with
  | O => false
  | S fuel' =>
      match base_of c with
      | Some b => issubclass_fuel fuel' b d
      | None => false
      end
  end.

(** [issubclass(c, d)]; the class tree has depth 4. *)
Definition issubclass (c d : exn_class) : bool := issubclass_fuel 4 c d.

(** A raised exception: its class and [str(e)]. *)
Record exn : Type := mk_exn { exn_cls : exn_class; exn_str : string }.

Definition isinstance (e : exn) (c : exn_class) : bool :=
  issubclass (exn_cls e) c.

(** The result of running a piece of Python: it returns, it raises, or the
    model does not determine what happens ([Undef]: the evaluated expression
    does not terminate, or lies outside the fragment that the reference
    evaluators below cover). *)
Inductive outcome (A : Type) : Type :=
| Ret (a : A)
| Exc (e : exn)
| Undef.
Arguments Ret {A} a.
Arguments Exc {A} e.
Arguments Undef {A}.

Definition bind {A B : Type} (m : outcome A) (k : A -> outcome B) : outcome B :=
  match m with
  | Ret a => k a
  | Exc e => Exc e
  | Undef => Undef
  end.

Notation "x <- m ;; k" := (bind m (fun x => k))
  (at level 61, m at next level, right associativity).

Definition raise {A : Type} (c : exn_class) (msg : string) : outcome A :=
  Exc (mk_exn c msg).

(** [try: m  except c as e: h e].  An exception that is not an instance of
    [c] passes through, as in Python. *)
Definition try_except {A : Type} (m : outcome A) (c : exn_class)
    (h : exn -> outcome A) : outcome A :=
  match m with
  | Exc e => if isinstance e c then h e else Exc e
  | other => other
  end.

(** [returns m]: the call came back with a value. *)
Definition returns {A : Type} (m : outcome A) : Prop := exists a, m = Ret a.

(* ================================================================== *)
(** ** Strings *)

Definition chars (s : string) : list ascii := list_ascii_of_string s.
Definition str_of (l : list ascii) : string := string_of_list_ascii l.

(** The double quote, and a text between double quotes. *)
Definition dquote : ascii := "034".
Definition quoted (s : string) : string :=
  String dquote (s ++ String dquote "").

(** [c in s] for a one-character [c]. *)
Definition contains (c : ascii) (s : string) : bool :=
  existsb (Ascii.eqb c) (chars s).

(** [s[:-1]]: the empty string stays empty. *)
Definition drop_last (s : string) : string := str_of (removelast (chars s)).

(** [s[-1]], when [s] is not empty. *)
Definition last_char (s : string) : option ascii :=
  match rev (chars s) with
  | c :: _ => Some c
  | [] => None
  end.

(** [s[i:j]]. *)
Definition slice (s : string) (i j : nat) : string :=
  str_of (firstn (j - i) (skipn i (chars s))).

(** [str.isspace] on one code point below 256: TAB, LF, VT, FF, CR, the
    separators FS, GS, RS, US, space, NEL and the no-break space.  The same
    set is what the pattern [\s] matches in a [str] pattern. *)
Definition isspace (c : ascii) : bool :=
  let n := nat_of_ascii c in
  (((9 <=? n) && (n <=? 13)) || ((28 <=? n) && (n <=? 32))
   || (n =? 133) || (n =? 160))%nat.

Fixpoint lstrip_chars (l : list ascii) : list ascii :=
  match l with
  | c :: rest => if isspace c then lstrip_chars rest else l
  | [] => []
  end.

(** [s.strip()]. *)
Definition strip (s : string) : string :=
  str_of (rev (lstrip_chars (rev (lstrip_chars (chars s))))).

(** ["".join(parts)]. *)
Definition join (parts : list string) : string := String.concat "" parts.

(** A string [p] is a prefix of [s]. *)
Definition is_prefix (p s : string) : Prop :=
  exists rest, s = (p ++ rest)%string.


(* ================================================================== *)
(** ** [get_combinations] *)

(** [itertools.product(pool, repeat=i)]: the tuples of length [i] over
    [pool], the rightmost position advancing fastest. *)
Fixpoint product_repeat {A : Type} (pool : list A) (i : nat) : list (list A) :=
  match i with
  | O => [[]]
  | S i' => flat_map (fun x => map (cons x) (product_repeat pool i')) pool
  end.

(** The guard of the inner loop, negated: the tuple is kept when
    [should_end_mark is None] or [comb[-1] == should_end_mark]. *)
Definition keeps (should_end_mark : option string) (comb : list string) : bool :=
  match should_end_mark with
  | None => true
  | Some m =>
      match rev comb with
      | x :: _ => String.eqb x m
      | [] => false
      end
  end.

(** The tuples whose joins [get_combinations] appends, in the order of the
    two nested loops: [i] runs over [range(1, n+1)]. *)
Definition kept_tuples (candidate_marks : list string) (n : Z)
    (should_end_mark : option string) : list (list string) :=
  flat_map
    (fun i => filter (keeps should_end_mark) (product_repeat candidate_marks i))
    (seq 1 (Z.to_nat n)).

Definition get_combinations (candidate_marks : list string) (n : Z)
    (should_end_mark : option string) : list string :=
  map join (kept_tuples candidate_marks n should_end_mark).

(* ================================================================== *)
(** ** [find_max_length] *)

(** The dictionary [{"completion": ..., "suggestions": ...}]. *)
Record ranked (A : Type) : Type :=
  mk_ranked { completion : A; suggestions : list A }.
Arguments mk_ranked {A} _ _.
Arguments completion {A} _.
Arguments suggestions {A} _.

Section FindMaxLength.
Context {A : Type}.
(** [len(str(element))]. *)
Variable strlen : A -> nat.

(** [max(len(str(element)) for element in data_list)]; the message is the
    one of CPython up to 3.11. *)
Definition max_of (data_list : list A) : outcome nat :=
  match data_list with
  | [] => raise ValueError "max() arg is an empty sequence"
  | x :: rest => Ret (fold_left (fun m y => Nat.max m (strlen y)) rest (strlen x))
  end.

(** [next(element for element in data_list if len(str(element)) == m)]. *)
Fixpoint next_with (m : nat) (data_list : list A) : outcome A :=
  match data_list with
  | [] => raise StopIteration ""
  | x :: rest => if (strlen x =? m)%nat then Ret x else next_with m rest
  end.

(** One step of a stable descending sort: [x] stood before every element
    of [l] in the input, so it goes before the first element whose key
    does not exceed its own. *)
Fixpoint insert_desc (x : A) (l : list A) : list A :=
  match l with
  | [] => [x]
  | y :: rest =>
      if (strlen y <=? strlen x)%nat then x :: l else y :: insert_desc x rest
  end.

(** [sorted(data_list, key=lambda e: len(str(e)), reverse=True)]: a
    stable sort, largest key first. *)
Definition sorted_desc (data_list : list A) : list A :=
  fold_right insert_desc [] data_list.

(** The body of [find_max_length], called on its one argument. *)
Definition find_max_length (data_list : list A) : outcome (ranked A) :=
  max_length <- max_of data_list ;;
  c <- next_with max_length data_list ;;
  Ret (mk_ranked c (sorted_desc data_list)).

(** "Not shorter than", the order of the suggestions, and the test for a
    given rendering length. *)
Definition not_shorter (a b : A) : Prop := (strlen b <= strlen a)%nat.
Definition has_length (k : nat) (a : A) : bool := (strlen a =? k)%nat.
End FindMaxLength.

(* ================================================================== *)
(** ** Calling a method through an instance *)

(** A [def] in the body of [class Parser]: its name and the parameters it
    declares, in order. *)
Record pydef : Type := mk_def { def_name : string; def_params : list string }.

Definition decimal (n : nat) : string :=
  NilZero.string_of_uint (Nat.to_uint n).

Definition plural (n : nat) : string :=
  if (n =? 1)%nat then "" else "s".

(** [str(e)] of the [TypeError] for a wrong number of positional arguments
    (the wording of CPython 3.10 and later, which names the class). *)
Definition arity_message (d : pydef) (given : nat) : string :=
  let declared := List.length (def_params d) in
  ("Parser." ++ def_name d ++ "() takes " ++ decimal declared
   ++ " positional argument" ++ plural declared ++ " but "
   ++ decimal given ++ " were given")%string.

(** [self.f(a1, ..., ak)] with [k = nargs]: Python passes the receiver as
    the first positional argument, so [f] is given [k + 1] of them.  When
    that is not the number [f] declares the call raises [TypeError] before
    the body runs.  When the count fits and the first parameter is [self],
    [body] is what the call computes.  A count that fits a [def] without
    [self] would bind the receiver to a data parameter, which is left
    undetermined here; it does not occur in [Parser]. *)
Definition call_method {A : Type} (d : pydef) (nargs : nat)
    (body : outcome A) : outcome A :=
  if (S nargs =? List.length (def_params d))%nat then
    match def_params d with
    | first :: _ => if String.eqb first "self" then body else Undef
    | [] => Undef
    end
  else raise TypeError (arity_message d (S nargs)).

(** [def complete_json_object(json_str: str, completion_str: str)]. *)
Definition complete_json_object_def : pydef :=
  mk_def "complete_json_object" ["json_str"; "completion_str"].

(** [def find_max_length(data_list: List[Any])]. *)
Definition find_max_length_def : pydef :=
  mk_def "find_max_length" ["data_list"].

(* ================================================================== *)
(** ** The pattern of [fit] and the pattern of [extract_complete_objects] *)

(** The class [[\[\]\{\}\s]]. *)
Definition bracket_or_space (c : ascii) : bool :=
  Ascii.eqb c "[" || Ascii.eqb c "]" || Ascii.eqb c "{" || Ascii.eqb c "}"
  || isspace c.

Fixpoint drop_while (p : ascii -> bool) (l : list ascii) : list ascii :=
  match l with
  | c :: rest => if p c then drop_while p rest else l
  | [] => []
  end.

(** [re.sub(r'[\[\]\{\}\s]+$', '', json_str)].  The class contains the
    line feed, so a run of the class followed by [$] can only end at the end
    of the text: the one match is the longest trailing run, and it is
    removed. *)
Definition strip_trailing_brackets (json_str : string) : string :=
  str_of (rev (drop_while bracket_or_space (rev (chars json_str)))).

(** One match of [re.finditer]: [match.start()], [match.end()] and
    [match.group(1)]. *)
Record rmatch : Type :=
  mk_match { m_start : nat; m_end : nat; m_group : string }.

(** After an opening bracket: the characters up to the first bracket of the
    same kind.  The leaf matches when that bracket is the closing one, and,
    for [escapable] (the look-behind [(?<!\\)] before [\]]), when the
    character before it is not a backslash.  Returns the number of
    characters consumed, the closing bracket included. *)
Fixpoint leaf_body (opening closing : ascii) (escapable : bool)
    (prev : ascii) (l : list ascii) : option nat :=
  match l with
  | [] => None
  | c :: rest =>
      if Ascii.eqb c closing then
        if escapable && Ascii.eqb prev "\" then None else Some 1
      else if Ascii.eqb c opening then None
      else option_map S (leaf_body opening closing escapable c rest)
  end.

(** The group [(\[[^][]*?(?<!\\)\]|\{[^{}]*\})] tried on the text [l]:
    the length of what it matches. *)
Definition object_regex_group (l : list ascii) : option nat :=
  match l with
  | "["%char :: rest => option_map S (leaf_body "[" "]" true "[" rest)
  | "{"%char :: rest => option_map S (leaf_body "{" "}" false "{" rest)
  | _ => None
  end.

(** The pattern [(?<!\\)(\[[^][]*?(?<!\\)\]|\{[^{}]*\})] tried at one
    position: [prev] is the character before it, [l] the text from it on.
    Returns the length of the match. *)
Definition object_regex_at (prev : option ascii) (l : list ascii) : option nat :=
  match prev with
  | Some c => if Ascii.eqb c "\" then None else object_regex_group l
  | None => object_regex_group l
  end.

(** [re.finditer(object_regex, string)] from position [pos] on: the
    leftmost match, then the search resumes where it ended.  [skip] counts
    the characters of the last match still to pass. *)
Fixpoint finditer_from (pos : nat) (prev : option ascii) (skip : nat)
    (l : list ascii) : list rmatch :=
  match l with
  | [] => []
  | c :: rest =>
      match skip with
      | S k => finditer_from (S pos) (Some c) k rest
      | O =>
          match object_regex_at prev l with
          | Some len =>
              mk_match pos (pos + len) (str_of (firstn len l))
              :: finditer_from (S pos) (Some c) (len - 1) rest
          | None => finditer_from (S pos) (Some c) 0 rest
          end
      end
  end.

Definition finditer (s : string) : list rmatch :=
  finditer_from 0 None 0 (chars s).

(* ================================================================== *)
(** ** The methods of [Parser] *)

(** What [fit] stores under ["data"]. *)
Inductive fit_data : Type :=
| DataCompleted (completion_ : value) (suggestions_ : list value)
    (** [{"completion": output, "suggestions": []}] *)
| DataSuggestions (completions : ranked value)
    (** [{"suggestions": completions}] *)
| DataError (error_message : string).
    (** [{"error_message": str(e)}] *)

(** The dictionary [fit] returns. *)
Record fit_dict : Type :=
  mk_fit { status : string; object_type : option pytype; data : fit_data }.

(** The state of the scanning loop of [extract_complete_objects]:
    [opening] is kept as its two counters. *)
Record scan_state : Type :=
  mk_scan {
    object_strings : list string;
    opening_brace : nat;      (** [opening["{"]] *)
    opening_bracket : nat;    (** [opening["["]] *)
    stack : list string;
    start : nat
  }.

Section Parser.
(** The Python runtime the class runs on.  [py_eval] is the builtin
    [eval] applied to the text inside [fit], [json_loads] is
    [json.loads], [literal_eval] is [ast.literal_eval] and [py_str] is
    [str]. *)
Variable py_eval : string -> outcome value.
Variable json_loads : string -> outcome value.
Variable literal_eval : string -> outcome value.
Variable py_str : value -> string.

Definition is_valid_json (input_str : string) : outcome bool :=
  try_except (_ <- json_loads input_str ;; Ret true)
    ValueError (fun _ => Ret false).

(** The loop of [complete_json_object], together with the texts it hands
    to [json.loads], in order.  Each round either leaves the loop or
    shortens [json_str], so [fuel] above its length is never used up. *)
Fixpoint complete_json_object_loop (fuel : nat)
    (json_str completion_str : string) : list string * outcome value :=
  match fuel with
  | O => ([], Undef)
  | S fuel' =>
      if String.eqb json_str "" then
        ([], raise ValueError "Couldn't fix JSON")
      else
        let complete_json_str := (json_str ++ completion_str)%string in
        match json_loads complete_json_str with
        | Exc e =>
            if isinstance e JSONDecodeError then
              let (tried, r) :=
                complete_json_object_loop fuel' (drop_last json_str)
                  completion_str in
              (complete_json_str :: tried, r)
            else ([complete_json_str], Exc e)
        | python_obj => ([complete_json_str], python_obj)
        end
  end.

Definition complete_json_object_run (json_str completion_str : string)
    : list string * outcome value :=
  complete_json_object_loop (S (String.length json_str)) json_str
    completion_str.

(** The body of [complete_json_object], called on its two arguments. *)
Definition complete_json_object (json_str completion_str : string)
    : outcome value :=
  snd (complete_json_object_run json_str completion_str).

(** The texts [complete_json_object] tries to parse. *)
Definition parse_attempts (json_str completion_str : string) : list string :=
  fst (complete_json_object_run json_str completion_str).

(** [l.remove(x)] for an [x] that occurs in [l]. *)
Fixpoint list_remove (x : string) (l : list string) : list string :=
  match l with
  | [] => []
  | y :: rest => if String.eqb y x then rest else y :: list_remove x rest
  end.

(** "Determine possible candidate marks". *)
Definition candidate_marks_of (json_str : string) : list string :=
  let candidate_marks := ["}"; "]"] in
  let candidate_marks :=
    if negb (contains "[" json_str) then list_remove "]" candidate_marks
    else candidate_marks in
  if negb (contains "{" json_str) then list_remove "}" candidate_marks
  else candidate_marks.

(** "Determine the mark the completion string should end with":
    [']' if json_str.strip()[0] == '[' else '}']. *)
Definition should_end_mark_of (json_str : string) : outcome string :=
  match chars (strip json_str) with
  | [] => raise IndexError "string index out of range"
  | c :: _ => Ret (if Ascii.eqb c "[" then "]" else "}")
  end.

(** The [for] loop of [get_possible_completions] over the completion
    strings still to try; [completions] is the list built so far. *)
Fixpoint collect_completions (json_str : string)
    (completion_strs : list string) (completions : list value)
    : outcome (list value) :=
  match completion_strs with
  | [] => Ret completions
  | completion_str :: rest =>
      completions' <-
        try_except
          (completed_obj <-
             call_method complete_json_object_def 2
               (complete_json_object json_str completion_str) ;;
           Ret (completions ++ [completed_obj]))
          Exception (fun _ => Ret completions) ;;
      collect_completions json_str rest completions'
  end.

Definition get_possible_completions (json_str : string)
    (max_completion_length : Z) : outcome (ranked value) :=
  let candidate_marks := candidate_marks_of json_str in
  should_end_mark <- should_end_mark_of json_str ;;
  completions <-
    collect_completions json_str
      (get_combinations candidate_marks max_completion_length
         (Some should_end_mark)) [] ;;
  call_method find_max_length_def 1
    (find_max_length (fun element => String.length (py_str element))
       completions).

Definition fit (json_str : string) (max_completion_length : Z)
    : outcome fit_dict :=
  try_except
    (output <- py_eval json_str ;;
     Ret (mk_fit "completed" (Some (type_of output))
            (DataCompleted output [])))
    Exception
    (fun _ =>
       let json_str := strip_trailing_brackets json_str in
       try_except
         (completions <-
            get_possible_completions json_str max_completion_length ;;
          Ret (mk_fit "incomplete" None (DataSuggestions completions)))
         Exception
         (fun e => Ret (mk_fit "failed" None (DataError (exn_str e))))).

(** [closing[match.group(1)[-1]]] when that character is a key of
    [closing]: [true] stands for ["{"], [false] for ["["]. *)
Definition closing_lookup (group : string) : option bool :=
  match last_char group with
  | Some "}"%char => Some true
  | Some "]"%char => Some false
  | _ => None
  end.

(** [len([bracket for bracket in opening.values() if bracket != 0])]. *)
Definition nonzero_counters (brace bracket : nat) : nat :=
  ((if (brace =? 0)%nat then 0 else 1)
   + (if (bracket =? 0)%nat then 0 else 1))%nat.

(** One round of the scanning loop. *)
Definition scan_step (text : string) (st : scan_state) (m : rmatch)
    : scan_state :=
  let start' :=
    if (List.length (stack st) =? 0)%nat then m_start m else start st in
  let stack' := stack st ++ [m_group m] in
  match closing_lookup (m_group m) with
  | Some is_brace =>
      let brace' :=
        if is_brace then S (opening_brace st) else opening_brace st in
      let bracket' :=
        if is_brace then opening_bracket st else S (opening_bracket st) in
      if ((if is_brace then brace' else bracket')
          =? nonzero_counters brace' bracket')%nat
      then mk_scan (object_strings st ++ [slice text start' (m_end m)])
             0 0 [] start'
      else mk_scan (object_strings st) brace' bracket' stack' start'
  | None =>
      mk_scan (object_strings st) (opening_brace st) (opening_bracket st)
        stack' start'
  end.

Definition scan (text : string) : scan_state :=
  fold_left (scan_step text) (finditer text) (mk_scan [] 0 0 [] 0).

(** What is printed after the scan. *)
Definition incomplete_notice (st : scan_state) : list string :=
  match rev (stack st) with
  | top :: _ =>
      [("Error: Incomplete object at end of string: " ++ top)%string]
  | [] => []
  end.

(** The second loop: [objects] is the list built so far, [printed] the
    lines printed so far. *)
Fixpoint evaluate_objects (strings : list string) (objects : list value)
    (printed : list string) : list string * outcome (list value) :=
  match strings with
  | [] => (printed, Ret objects)
  | object_string :: rest =>
      match literal_eval object_string with
      | Ret obj => evaluate_objects rest (objects ++ [obj]) printed
      | Exc e =>
          if isinstance e ValueError || isinstance e SyntaxError then
            evaluate_objects rest objects
              (printed ++
               [("Error evaluating object string '" ++ object_string
                 ++ "': " ++ exn_str e)%string])
          else (printed, Exc e)
      | Undef => (printed, Undef)
      end
  end.

(** [extract_complete_objects]: the lines it prints and what it
    returns. *)
Definition extract_complete_objects (text : string)
    : list string * outcome (list value) :=
  let st := scan text in
  evaluate_objects (object_strings st) [] (incomplete_notice st).
End Parser.

(* ================================================================== *)
(** ** Reference evaluators

    [json.loads], [eval], [ast.literal_eval] and [str] belong to Python,
    not to the repository.  The general results below hold for any
    runtime.  For the claims about particular texts the following
    evaluators compute what CPython does on a fragment: integers, strings,
    [True]/[False]/[None] (JSON: [true]/[false]/[null]), lists,
    dictionaries, and for [eval] sums, negation and calls of [exit] and
    [quit].  Wherever a text leaves the fragment (floats, escapes in
    Python strings, other names and operators, more than 64 opening
    brackets, integers of more than 4300 digits) they answer [Undef]
    instead of guessing.  The text of a [SyntaxError] or [JSONDecodeError]
    depends on the CPython version and is not modelled. *)

Inductive token : Type :=
| TInt (z : Z)
| TStr (s : string)
| TName (s : string)
| TPunct (c : ascii).

(** What a lexer makes of a text. *)
Inductive lexed : Type :=
| Toks (ts : list token)
| LexError      (** the text is rejected by the lexical rules *)
| LexUndef.     (** the text leaves the fragment *)

(** What one character does to a lexer in a given mode. *)
Inductive lex_step (M : Type) : Type :=
| Step (emitted : list token) (next : M)
| StepError
| StepUndef.
Arguments Step {M} emitted next.
Arguments StepError {M}.
Arguments StepUndef {M}.

Definition emit_then {M : Type} (ts : list token) (s : lex_step M) : lex_step M :=
  match s with
  | Step ts' m => Step (ts ++ ts') m
  | other => other
  end.

Definition prepend (ts : list token) (r : lexed) : lexed :=
  match r with
  | Toks ts' => Toks (ts ++ ts')
  | other => other
  end.

Section Lexer.
Context {M : Type}.
Variable step : M -> ascii -> lex_step M.
Variable finish : M -> lexed.

(** A lexer reads the text once, left to right. *)
Fixpoint run_lexer (mode : M) (l : list ascii) : lexed :=
  match l with
  | [] => finish mode
  | c :: rest =>
      match step mode c with
      | Step ts mode' => prepend ts (run_lexer mode' rest)
      | StepError => LexError
      | StepUndef => LexUndef
      end
  end.
End Lexer.

Definition is_digit (c : ascii) : bool :=
  let n := nat_of_ascii c in ((48 <=? n) && (n <=? 57))%nat.

Definition is_letter (c : ascii) : bool :=
  let n := nat_of_ascii c in
  (((65 <=? n) && (n <=? 90)) || ((97 <=? n) && (n <=? 122)))%nat.

(** The value of a run of decimal digits, most significant first. *)
Definition digits_value (ds : list ascii) : Z :=
  fold_left (fun acc c => (10 * acc + Z.of_nat (nat_of_ascii c - 48))%Z) ds 0%Z.

(** The longest integer literal Python converts (its default
    [sys.int_info.str_digits_check_threshold] guard). *)
Definition max_str_digits : nat := 4300.

(** The bound on opening brackets inside the fragment. *)
Definition max_open_brackets : nat := 64.

Definition open_brackets (s : string) : nat :=
  List.length
    (filter (fun c => Ascii.eqb c "[" || Ascii.eqb c "{" || Ascii.eqb c "(")
       (chars s)).

(** Keys that are equal as dictionary keys: [True == 1] and [False == 0],
    everything else by value.  Only hashable keys reach this test. *)
Definition key_eqb (k1 k2 : value) : bool :=
  match k1, k2 with
  | VNone, VNone => true
  | VBool a, VBool b => Bool.eqb a b
  | VBool a, VInt z | VInt z, VBool a => Z.eqb z (if a then 1 else 0)
  | VInt a, VInt b => Z.eqb a b
  | VStr a, VStr b => String.eqb a b
  | _, _ => false
  end.

(** [d[k] = v]: an existing key keeps its place and its key object. *)
Fixpoint dict_set (d : list (value * value)) (k v : value)
    : list (value * value) :=
  match d with
  | [] => [(k, v)]
  | (k', v') :: rest =>
      if key_eqb k' k then (k', v) :: rest else (k', v') :: dict_set rest k v
  end.

(** What a parser makes of a token list: a result and the tokens left, a
    rejection, or a text outside the fragment. *)
Inductive parsed (A : Type) : Type :=
| POk (a : A) (rest : list token)
| PError
| PUndef.
Arguments POk {A} a rest.
Arguments PError {A}.
Arguments PUndef {A}.

Module JsonRef.

Inductive mode : Type :=
| Idle
| InNumber (negative : bool) (digits_rev : list ascii)
| InName (letters_rev : list ascii)
| InString (body_rev : list ascii) (escaped : bool).

Definition is_whitespace (c : ascii) : bool :=
  Ascii.eqb c " " || Ascii.eqb c "009" || Ascii.eqb c "010"
  || Ascii.eqb c "013".

Definition is_punct (c : ascii) : bool :=
  Ascii.eqb c "{" || Ascii.eqb c "}" || Ascii.eqb c "[" || Ascii.eqb c "]"
  || Ascii.eqb c "," || Ascii.eqb c ":".

Definition idle_step (c : ascii) : lex_step mode :=
  if is_whitespace c then Step [] Idle
  else if Ascii.eqb c dquote then Step [] (InString [] false)
  else if Ascii.eqb c "-" then Step [] (InNumber true [])
  else if is_digit c then Step [] (InNumber false [c])
  else if is_letter c then Step [] (InName [c])
  else if is_punct c then Step [TPunct c] Idle
  else StepError.

Definition finish_number (negative : bool) (digits_rev : list ascii)
    : lex_step mode :=
  match digits_rev with
  | [] => StepError
  | _ =>
      if (max_str_digits <? List.length digits_rev)%nat then StepUndef
      else
        let z := digits_value (rev digits_rev) in
        Step [TInt (if negative then (- z)%Z else z)] Idle
  end.

Definition finish_name (letters_rev : list ascii) : lex_step mode :=
  let name := str_of (rev letters_rev) in
  if String.eqb name "true" || String.eqb name "false"
     || String.eqb name "null"
  then Step [TName name] Idle
  else
    match rev letters_rev with
    | "N"%char :: _ | "I"%char :: _ => StepUndef
    | _ => StepError
    end.

Definition unescape (c : ascii) : lex_step ascii :=
  if Ascii.eqb c dquote || Ascii.eqb c "\" || Ascii.eqb c "/" then Step [] c
  else if Ascii.eqb c "b" then Step [] "008"%char
  else if Ascii.eqb c "f" then Step [] "012"%char
  else if Ascii.eqb c "n" then Step [] "010"%char
  else if Ascii.eqb c "r" then Step [] "013"%char
  else if Ascii.eqb c "t" then Step [] "009"%char
  else if Ascii.eqb c "u" then StepUndef
  else StepError.

Definition step (m : mode) (c : ascii) : lex_step mode :=
  match m with
  | Idle => idle_step c
  | InNumber negative digits_rev =>
      if is_digit c then
        match digits_rev with
        | ["0"%char] => StepError
        | _ => Step [] (InNumber negative (c :: digits_rev))
        end
      else if Ascii.eqb c "." || Ascii.eqb c "e" || Ascii.eqb c "E"
              || Ascii.eqb c "I"
      then StepUndef
      else
        match finish_number negative digits_rev with
        | Step ts _ => emit_then ts (idle_step c)
        | other => other
        end
  | InName letters_rev =>
      if is_letter c then Step [] (InName (c :: letters_rev))
      else
        match finish_name letters_rev with
        | Step ts _ => emit_then ts (idle_step c)
        | other => other
        end
  | InString body_rev true =>
      match unescape c with
      | Step _ c' => Step [] (InString (c' :: body_rev) false)
      | StepError => StepError
      | StepUndef => StepUndef
      end
  | InString body_rev false =>
      if Ascii.eqb c dquote then Step [TStr (str_of (rev body_rev))] Idle
      else if Ascii.eqb c "\" then Step [] (InString body_rev true)
      else if (nat_of_ascii c <? 32)%nat then StepError
      else Step [] (InString (c :: body_rev) false)
  end.

Definition finish (m : mode) : lexed :=
  match m with
  | Idle => Toks []
  | InNumber negative digits_rev =>
      match finish_number negative digits_rev with
      | Step ts _ => Toks ts
      | StepError => LexError
      | StepUndef => LexUndef
      end
  | InName letters_rev =>
      match finish_name letters_rev with
      | Step ts _ => Toks ts
      | StepError => LexError
      | StepUndef => LexUndef
      end
  | InString _ _ => LexError
  end.

Definition lex (s : string) : lexed := run_lexer step finish Idle (chars s).

(** The JSON grammar over tokens.  [fuel] bounds the depth of the
    recursion; running out of it leaves the question open. *)
Fixpoint parse_value (fuel : nat) (ts : list token) : parsed value :=
  match fuel with
  | O => PUndef
  | S fuel' =>
      match ts with
      | TInt z :: rest => POk (VInt z) rest
      | TStr s :: rest => POk (VStr s) rest
      | TName "true" :: rest => POk (VBool true) rest
      | TName "false" :: rest => POk (VBool false) rest
      | TName "null" :: rest => POk VNone rest
      | TPunct "["%char :: TPunct "]"%char :: rest => POk (VList []) rest
      | TPunct "["%char :: rest => parse_elements fuel' [] rest
      | TPunct "{"%char :: TPunct "}"%char :: rest => POk (VDict []) rest
      | TPunct "{"%char :: rest => parse_members fuel' [] rest
      | _ => PError
      end
  end
with parse_elements (fuel : nat) (items : list value) (ts : list token)
    : parsed value :=
  match fuel with
  | O => PUndef
  | S fuel' =>
      match parse_value fuel' ts with
      | POk v (TPunct ","%char :: rest) =>
          parse_elements fuel' (items ++ [v]) rest
      | POk v (TPunct "]"%char :: rest) => POk (VList (items ++ [v])) rest
      | POk _ _ => PError
      | other => other
      end
  end
with parse_members (fuel : nat) (entries : list (value * value))
    (ts : list token) : parsed value :=
  match fuel with
  | O => PUndef
  | S fuel' =>
      match ts with
      | TStr k :: TPunct ":"%char :: rest =>
          match parse_value fuel' rest with
          | POk v (TPunct ","%char :: rest') =>
              parse_members fuel' (dict_set entries (VStr k) v) rest'
          | POk v (TPunct "}"%char :: rest') =>
              POk (VDict (dict_set entries (VStr k) v)) rest'
          | POk _ _ => PError
          | other => other
          end
      | _ => PError
      end
  end.

Definition decode_error : exn := mk_exn JSONDecodeError "".

(** [json.loads(s)] on the fragment. *)
Definition loads (s : string) : outcome value :=
  if (max_open_brackets <? open_brackets s)%nat then Undef
  else
    match lex s with
    | Toks ts =>
        match parse_value (2 * List.length ts + 2) ts with
        | POk v [] => Ret v
        | POk _ _ | PError => Exc decode_error
        | PUndef => Undef
        end
    | LexError => Exc decode_error
    | LexUndef => Undef
    end.

End JsonRef.

Module PyRef.

(** *** The lexer of the expression fragment *)

Inductive mode : Type :=
| Idle
| InNumber (chars_rev : list ascii)
| InName (chars_rev : list ascii)
| InString (quote : ascii) (body_rev : list ascii)
| AfterEmpty (quote : ascii).
  (** an empty string literal has just been closed: one more [quote]
      would have opened a triple-quoted string *)

Definition is_quote (c : ascii) : bool :=
  Ascii.eqb c dquote || Ascii.eqb c "'".

Definition is_punct (c : ascii) : bool :=
  Ascii.eqb c "{" || Ascii.eqb c "}" || Ascii.eqb c "[" || Ascii.eqb c "]"
  || Ascii.eqb c "," || Ascii.eqb c ":" || Ascii.eqb c "("
  || Ascii.eqb c ")" || Ascii.eqb c "+" || Ascii.eqb c "-".

Definition idle_step (c : ascii) : lex_step mode :=
  if Ascii.eqb c " " || Ascii.eqb c "009" then Step [] Idle
  else if is_quote c then Step [] (InString c [])
  else if is_digit c then Step [] (InNumber [c])
  else if is_letter c || Ascii.eqb c "_" then Step [] (InName [c])
  else if is_punct c then Step [TPunct c] Idle
  else StepUndef.

(** A decimal integer literal without a leading zero; everything else
    that starts with a digit (floats, other bases, underscores,
    [00]) leaves the fragment. *)
Definition finish_number (chars_rev : list ascii) : lex_step mode :=
  let ds := rev chars_rev in
  let plain :=
    match ds with
    | ["0"%char] => true
    | "0"%char :: _ => false
    | _ => true
    end in
  if forallb is_digit ds && plain
     && (List.length ds <=? max_str_digits)%nat
  then Step [TInt (digits_value ds)] Idle
  else StepUndef.

Definition step (m : mode) (c : ascii) : lex_step mode :=
  match m with
  | Idle => idle_step c
  | InNumber chars_rev =>
      if is_digit c || is_letter c || Ascii.eqb c "_" || Ascii.eqb c "."
      then Step [] (InNumber (c :: chars_rev))
      else
        match finish_number chars_rev with
        | Step ts _ => emit_then ts (idle_step c)
        | other => other
        end
  | InName chars_rev =>
      if is_letter c || is_digit c || Ascii.eqb c "_"
      then Step [] (InName (c :: chars_rev))
      else if is_quote c then StepUndef
      else emit_then [TName (str_of (rev chars_rev))] (idle_step c)
  | InString quote body_rev =>
      if Ascii.eqb c quote then
        match body_rev with
        | [] => Step [TStr ""] (AfterEmpty quote)
        | _ => Step [TStr (str_of (rev body_rev))] Idle
        end
      else if Ascii.eqb c "\" || Ascii.eqb c "010" || Ascii.eqb c "013"
              || Ascii.eqb c "000"
      then StepUndef
      else Step [] (InString quote (c :: body_rev))
  | AfterEmpty quote =>
      if Ascii.eqb c quote then StepUndef else idle_step c
  end.

(** The end of the text inside a string literal is a syntax error. *)
Definition finish (m : mode) : lexed :=
  match m with
  | Idle | AfterEmpty _ => Toks []
  | InNumber chars_rev =>
      match finish_number chars_rev with
      | Step ts _ => Toks ts
      | _ => LexUndef
      end
  | InName chars_rev => Toks [TName (str_of (rev chars_rev))]
  | InString _ _ => LexError
  end.

Definition lex (s : string) : lexed := run_lexer step finish Idle (chars s).

(** *** The parser of the expression fragment *)

Inductive expr : Type :=
| EInt (z : Z)
| EStr (s : string)
| EName (id : string)
| EList (elts : list expr)
| EDict (items : list (expr * expr))
| ENeg (operand : expr)
| EAdd (lhs rhs : expr)
| ECall (func : expr).

(** [PError] is returned where the tokens end although the grammar needs
    more (inside a bracket, after an operator, or at once): a
    [SyntaxError] in every Python.  A token the fragment has no rule for
    gives [PUndef]. *)
Fixpoint parse_expr (fuel : nat) (ts : list token) : parsed expr :=
  match fuel with
  | O => PUndef
  | S fuel' =>
      match parse_factor fuel' ts with
      | POk a rest => parse_sum fuel' a rest
      | other => other
      end
  end
with parse_sum (fuel : nat) (a : expr) (ts : list token) : parsed expr :=
  match fuel with
  | O => PUndef
  | S fuel' =>
      match ts with
      | TPunct "+"%char :: rest =>
          match parse_factor fuel' rest with
          | POk b rest' => parse_sum fuel' (EAdd a b) rest'
          | other => other
          end
      | _ => POk a ts
      end
  end
with parse_factor (fuel : nat) (ts : list token) : parsed expr :=
  match fuel with
  | O => PUndef
  | S fuel' =>
      match ts with
      | TPunct "-"%char :: rest =>
          match parse_factor fuel' rest with
          | POk a rest' => POk (ENeg a) rest'
          | other => other
          end
      | _ =>
          match parse_atom fuel' ts with
          | POk a rest => parse_calls fuel' a rest
          | other => other
          end
      end
  end
with parse_calls (fuel : nat) (a : expr) (ts : list token) : parsed expr :=
  match fuel with
  | O => PUndef
  | S fuel' =>
      match ts with
      | TPunct "("%char :: TPunct ")"%char :: rest =>
          parse_calls fuel' (ECall a) rest
      | [TPunct "("%char] => PError
      | TPunct "("%char :: _ => PUndef
      | _ => POk a ts
      end
  end
with parse_atom (fuel : nat) (ts : list token) : parsed expr :=
  match fuel with
  | O => PUndef
  | S fuel' =>
      match ts with
      | [] => PError
      | TInt z :: rest => POk (EInt z) rest
      | TStr s :: rest => POk (EStr s) rest
      | TName id :: rest => POk (EName id) rest
      | TPunct "["%char :: TPunct "]"%char :: rest => POk (EList []) rest
      | TPunct "["%char :: rest => parse_elts fuel' [] rest
      | TPunct "{"%char :: TPunct "}"%char :: rest => POk (EDict []) rest
      | TPunct "{"%char :: rest => parse_items fuel' [] rest
      | _ => PUndef
      end
  end
with parse_elts (fuel : nat) (elts : list expr) (ts : list token)
    : parsed expr :=
  match fuel with
  | O => PUndef
  | S fuel' =>
      match parse_expr fuel' ts with
      | POk e (TPunct ","%char :: TPunct "]"%char :: rest)
      | POk e (TPunct "]"%char :: rest) => POk (EList (elts ++ [e])) rest
      | POk e (TPunct ","%char :: rest) =>
          parse_elts fuel' (elts ++ [e]) rest
      | POk _ [] => PError
      | POk _ _ => PUndef
      | other => other
      end
  end
with parse_items (fuel : nat) (items : list (expr * expr))
    (ts : list token) : parsed expr :=
  match fuel with
  | O => PUndef
  | S fuel' =>
      match parse_expr fuel' ts with
      | POk k (TPunct ":"%char :: rest) =>
          match parse_expr fuel' rest with
          | POk v (TPunct ","%char :: TPunct "}"%char :: rest')
          | POk v (TPunct "}"%char :: rest') =>
              POk (EDict (items ++ [(k, v)])) rest'
          | POk v (TPunct ","%char :: rest') =>
              parse_items fuel' (items ++ [(k, v)]) rest'
          | POk _ [] => PError
          | POk _ _ => PUndef
          | other => other
          end
      | POk _ [] => PError
      | POk _ _ => PUndef
      | other => other
      end
  end.

Definition syntax_error : exn := mk_exn SyntaxError "".

(** [ast.parse(s, mode='eval')] on the fragment. *)
Definition parse (s : string) : outcome expr :=
  if (max_open_brackets <? open_brackets s)%nat then Undef
  else
    match lex s with
    | Toks ts =>
        match parse_expr (6 * List.length ts + 6) ts with
        | POk e [] => Ret e
        | POk _ _ => Undef
        | PError => Exc syntax_error
        | PUndef => Undef
        end
    | LexError => Exc syntax_error
    | LexUndef => Undef
    end.

(** *** Evaluation *)

Definition is_hashable (v : value) : bool :=
  match v with
  | VList _ | VDict _ => false
  | _ => true
  end.

Definition type_name (v : value) : string :=
  match v with
  | VNone => "NoneType"
  | VBool _ => "bool"
  | VInt _ => "int"
  | VStr _ => "str"
  | VList _ => "list"
  | VDict _ => "dict"
  end.

Definition unhashable {A : Type} (k : value) : outcome A :=
  raise TypeError ("unhashable type: '" ++ type_name k ++ "'")%string.

(** Inserting the pairs of a dictionary one after the other. *)
Fixpoint insert_all (d : list (value * value)) (kvs : list (value * value))
    : outcome (list (value * value)) :=
  match kvs with
  | [] => Ret d
  | (k, v) :: rest =>
      if is_hashable k then insert_all (dict_set d k v) rest
      else unhashable k
  end.

(** The largest dictionary display that is built by one instruction in
    every CPython 3; a longer display with an unhashable key leaves the
    fragment, because newer compilers build it in pieces. *)
Definition max_display : nat := 15.

(** A dictionary display: all keys and values are on the stack before
    the dictionary is built. *)
Definition build_map (kvs : list (value * value)) : outcome value :=
  if forallb (fun kv => is_hashable (fst kv)) kvs
     || (List.length kvs <=? max_display)%nat
  then d <- insert_all [] kvs ;; Ret (VDict d)
  else Undef.

(** Booleans are integers in arithmetic. *)
Definition as_int (v : value) : option Z :=
  match v with
  | VInt z => Some z
  | VBool b => Some (if b then 1 else 0)%Z
  | _ => None
  end.

Definition add (x y : value) : outcome value :=
  match as_int x, as_int y with
  | Some a, Some b => Ret (VInt (a + b))
  | _, _ =>
      match x, y with
      | VStr a, VStr b => Ret (VStr (a ++ b))
      | VList a, VList b => Ret (VList (a ++ b))
      | _, _ => Undef
      end
  end.

Definition neg (x : value) : outcome value :=
  match as_int x with
  | Some a => Ret (VInt (- a))
  | None => Undef
  end.

(** A name inside [fit]: the constants, and three names that are bound
    neither in [fit], nor in the module, nor among the builtins.  Other
    names denote objects outside [value]. *)
Definition lookup (id : string) : outcome value :=
  if String.eqb id "True" then Ret (VBool true)
  else if String.eqb id "False" then Ret (VBool false)
  else if String.eqb id "None" then Ret VNone
  else if String.eqb id "null" || String.eqb id "true"
          || String.eqb id "false"
  then raise NameError ("name '" ++ id ++ "' is not defined")%string
  else Undef.

(** [exit()] and [quit()], the callables that [site] installs, raise
    [SystemExit(None)]. *)
Definition call (func : expr) : outcome value :=
  match func with
  | EName id =>
      if String.eqb id "exit" || String.eqb id "quit"
      then raise SystemExit "None"
      else Undef
  | _ => Undef
  end.

Fixpoint eval_expr (e : expr) : outcome value :=
  match e with
  | EInt z => Ret (VInt z)
  | EStr s => Ret (VStr s)
  | EName id => lookup id
  | EList elts =>
      vs <- (fix eval_elts (l : list expr) : outcome (list value) :=
               match l with
               | [] => Ret []
               | x :: rest =>
                   v <- eval_expr x ;;
                   vs <- eval_elts rest ;;
                   Ret (v :: vs)
               end) elts ;;
      Ret (VList vs)
  | EDict items =>
      kvs <- (fix eval_items (l : list (expr * expr))
                : outcome (list (value * value)) :=
                match l with
                | [] => Ret []
                | (k, v) :: rest =>
                    k' <- eval_expr k ;;
                    v' <- eval_expr v ;;
                    kvs <- eval_items rest ;;
                    Ret ((k', v') :: kvs)
                end) items ;;
      build_map kvs
  | ENeg operand => x <- eval_expr operand ;; neg x
  | EAdd lhs rhs =>
      x <- eval_expr lhs ;; y <- eval_expr rhs ;; add x y
  | ECall func => call func
  end.

(** [eval(s)] as [fit] calls it, on the fragment. *)
Definition eval (s : string) : outcome value :=
  e <- parse s ;; eval_expr e.

(** [ast.literal_eval]'s conversion of the tree.  [dict(zip(...))]
    converts and inserts one pair at a time.  A node it rejects would
    raise a [ValueError] whose text holds a memory address, so those
    stay outside the fragment, as do sums, whose treatment changed
    between versions. *)
Fixpoint convert (e : expr) : outcome value :=
  match e with
  | EInt z => Ret (VInt z)
  | EStr s => Ret (VStr s)
  | EName id =>
      if String.eqb id "True" then Ret (VBool true)
      else if String.eqb id "False" then Ret (VBool false)
      else if String.eqb id "None" then Ret VNone
      else Undef
  | EList elts =>
      vs <- (fix convert_elts (l : list expr) : outcome (list value) :=
               match l with
               | [] => Ret []
               | x :: rest =>
                   v <- convert x ;;
                   vs <- convert_elts rest ;;
                   Ret (v :: vs)
               end) elts ;;
      Ret (VList vs)
  | EDict items =>
      d <- (fix convert_items (l : list (expr * expr))
              (d : list (value * value))
              : outcome (list (value * value)) :=
              match l with
              | [] => Ret d
              | (k, v) :: rest =>
                  k' <- convert k ;;
                  v' <- convert v ;;
                  if is_hashable k'
                  then convert_items rest (dict_set d k' v')
                  else unhashable k'
              end) items [] ;;
      Ret (VDict d)
  | ENeg (EInt z) => Ret (VInt (- z))
  | ENeg _ | EAdd _ _ | ECall _ => Undef
  end.

Definition literal_eval (s : string) : outcome value :=
  e <- parse s ;; convert e.

(** *** [repr] and [str] *)

Definition hex_digit (n : nat) : ascii :=
  ascii_of_nat (if (n <? 10)%nat then 48 + n else 87 + n).

(** [str.isprintable] on one code point below 256. *)
Definition is_printable (c : ascii) : bool :=
  let n := nat_of_ascii c in
  (((32 <=? n) && (n <? 127)) || ((161 <=? n) && negb (n =? 173)))%nat.

Definition repr_char (quote c : ascii) : list ascii :=
  if Ascii.eqb c "\" then ["\"; "\"]%char
  else if Ascii.eqb c quote then ["\"%char; c]
  else if Ascii.eqb c "010" then ["\"; "n"]%char
  else if Ascii.eqb c "013" then ["\"; "r"]%char
  else if Ascii.eqb c "009" then ["\"; "t"]%char
  else if is_printable c then [c]
  else
    let n := nat_of_ascii c in
    ["\"%char; "x"%char; hex_digit (n / 16); hex_digit (n mod 16)].

(** [repr] of a string: single quotes, unless the string holds one and
    no double quote. *)
Definition repr_str (s : string) : string :=
  let quote :=
    if contains "'" s && negb (contains dquote s) then dquote
    else "'"%char in
  str_of ([quote] ++ flat_map (repr_char quote) (chars s) ++ [quote]).

Definition repr_int (z : Z) : string := NilZero.string_of_int (Z.to_int z).

Fixpoint repr (v : value) : string :=
  match v with
  | VNone => "None"
  | VBool true => "True"
  | VBool false => "False"
  | VInt z => repr_int z
  | VStr s => repr_str s
  | VList items =>
      ("[" ++ String.concat ", " (map repr items) ++ "]")%string
  | VDict entries =>
      ("{" ++ String.concat ", "
                (map (fun kv : value * value =>
                        let (k, x) := kv in
                        (repr k ++ ": " ++ repr x)%string)
                   entries)
       ++ "}")%string
  end.

(** [str(v)]. *)
Definition str (v : value) : string :=
  match v with
  | VStr s => s
  | _ => repr v
  end.
End PyRef.

(** [json.dumps(v)] with its default separators, for the values that the
    fragment shares with JSON and whose strings need no escape beyond the
    short ones. *)
Module JsonDump.

Definition escape_char (c : ascii) : option (list ascii) :=
  if Ascii.eqb c dquote then Some ["\"%char; dquote]
  else if Ascii.eqb c "\" then Some ["\"; "\"]%char
  else if Ascii.eqb c "010" then Some ["\"; "n"]%char
  else if Ascii.eqb c "013" then Some ["\"; "r"]%char
  else if Ascii.eqb c "009" then Some ["\"; "t"]%char
  else if Ascii.eqb c "008" then Some ["\"; "b"]%char
  else if Ascii.eqb c "012" then Some ["\"; "f"]%char
  else
    let n := nat_of_ascii c in
    if ((32 <=? n) && (n <? 127))%nat then Some [c] else None.

Fixpoint escape (l : list ascii) : option (list ascii) :=
  match l with
  | [] => Some []
  | c :: rest =>
      match escape_char c, escape rest with
      | Some a, Some b => Some (a ++ b)
      | _, _ => None
      end
  end.

Definition dump_str (s : string) : outcome string :=
  match escape (chars s) with
  | Some body => Ret (quoted (str_of body))
  | None => Undef
  end.

(** Keys are written as strings: an integer key by its digits, [True],
    [False] and [None] as ["true"], ["false"] and ["null"]. *)
Definition dump_key (k : value) : outcome string :=
  match k with
  | VStr s => dump_str s
  | VInt z => Ret (quoted (PyRef.repr_int z))
  | VBool true => Ret (quoted "true")
  | VBool false => Ret (quoted "false")
  | VNone => Ret (quoted "null")
  | _ =>
      raise TypeError
        ("keys must be str, int, float, bool or None, not "
         ++ PyRef.type_name k)%string
  end.

Fixpoint dumps (v : value) : outcome string :=
  match v with
  | VNone => Ret "null"
  | VBool true => Ret "true"
  | VBool false => Ret "false"
  | VInt z => Ret (PyRef.repr_int z)
  | VStr s => dump_str s
  | VList items =>
      parts <- (fix dump_items (l : list value) : outcome (list string) :=
                  match l with
                  | [] => Ret []
                  | x :: rest =>
                      s <- dumps x ;;
                      ss <- dump_items rest ;;
                      Ret (s :: ss)
                  end) items ;;
      Ret ("[" ++ String.concat ", " parts ++ "]")%string
  | VDict entries =>
      parts <- (fix dump_entries (l : list (value * value))
                  : outcome (list string) :=
                  match l with
                  | [] => Ret []
                  | (k, x) :: rest =>
                      ks <- dump_key k ;;
                      xs <- dumps x ;;
                      ss <- dump_entries rest ;;
                      Ret ((ks ++ ": " ++ xs)%string :: ss)
                  end) entries ;;
      Ret ("{" ++ String.concat ", " parts ++ "}")%string
  end.
End JsonDump.

(* ================================================================== *)
(** ** [Parser] on the reference runtime *)

Module Ref.
Definition is_valid_json := is_valid_json JsonRef.loads.
Definition complete_json_object := complete_json_object JsonRef.loads.
Definition parse_attempts := parse_attempts JsonRef.loads.
Definition get_possible_completions :=
  get_possible_completions JsonRef.loads PyRef.str.
Definition fit := fit PyRef.eval JsonRef.loads PyRef.str.
Definition find_max_length :=
  find_max_length (fun element : value => String.length (PyRef.str element)).
Definition extract_complete_objects :=
  extract_complete_objects PyRef.literal_eval.
End Ref.

(** A runtime function [f] extends [g]: wherever [g] determines the
    outcome, [f] has the same outcome. *)
Definition extends (f g : string -> outcome value) : Prop :=
  forall s, g s <> Undef -> f s = g s.

(** The exception that ends [get_possible_completions] on [json_str] (see
    [get_possible_completions_ends] below). *)
Definition search_error (json_str : string) : exn :=
  match chars (strip json_str) with
  | [] => mk_exn IndexError "string index out of range"
  | _ => mk_exn TypeError (arity_message find_max_length_def 2)
  end.

(** The status of the dictionary a call of [fit] returned, if it did. *)
Definition status_of (r : outcome fit_dict) : option string :=
  match r with
  | Ret d => Some (status d)
  | _ => None
  end.

(* ================================================================== *)
(** ** The texts and values of the examples *)

Module Examples.
(** The object [{"a": 1, "b": 2}] cut before its closing brace, and
    whole. *)
Definition truncated_object : string :=
  ("{" ++ quoted "a" ++ ": 1, " ++ quoted "b" ++ ": 2")%string.
Definition whole_object : string := (truncated_object ++ "}")%string.

(** The dictionary with ["a"] bound to 1 and ["b"] bound to 2. *)
Definition a1_b2 : value := VDict [(VStr "a", VInt 1); (VStr "b", VInt 2)].

(** [{"a":1}{"b":2}] and [{"a":1]. *)
Definition two_objects : string :=
  ("{" ++ quoted "a" ++ ":1}{" ++ quoted "b" ++ ":2}")%string.
Definition dangling_object : string := ("{" ++ quoted "a" ++ ":1")%string.

(** A Python dictionary display that is not JSON, and a sum. *)
Definition single_quoted_object : string := "{'a': 1}".
Definition sum : string := "1+1".
End Examples.

(* ================================================================== *)
(** ** Notions used to state further properties *)

(** [s[:k]]. *)
Definition take (k : nat) (s : string) : string := str_of (firstn k (chars s)).

(** [json.loads(s)] raises [json.JSONDecodeError]: the one failure the loop
    of [complete_json_object] answers by shortening the text. *)
Definition decode_fails (json_loads : string -> outcome value) (s : string)
    : Prop :=
  exists e, json_loads s = Exc e /\ isinstance e JSONDecodeError = true.

(** The texts [text[:j] + suffix] for [j] from [hi] down to [lo]. *)
Definition attempts_down (text suffix : string) (lo hi : nat) : list string :=
  map (fun j => (take j text ++ suffix)%string) (rev (seq lo (S hi - lo))).

(** [1 + m + ... + m^(n-1)]. *)
Definition geometric_sum (m n : nat) : nat :=
  list_sum (map (Nat.pow m) (seq 0 n)).

(** A text between one pair of brackets of a kind, with no bracket of that
    kind inside. *)
Definition flat_group (opening closing : ascii) (s : string) : Prop :=
  exists inner : list ascii,
    chars s = opening :: inner ++ [closing]
    /\ Forall (fun c => c <> opening /\ c <> closing) inner.

(** The exceptions the second loop of [extract_complete_objects] catches:
    [except (ValueError, SyntaxError)]. *)
Definition caught_on_evaluation (e : exn) : bool :=
  isinstance e ValueError || isinstance e SyntaxError.

(** The line printed for an object string whose evaluation raised [e]. *)
Definition evaluation_notice (object_string : string) (e : exn) : string :=
  ("Error evaluating object string '" ++ object_string ++ "': "
   ++ exn_str e)%string.

(** The objects an evaluator yields on a list of object strings, and the
    lines for those on which it raises. *)
Definition evaluated (literal_eval : string -> outcome value)
    (strings : list string) : list value :=
  flat_map (fun s => match literal_eval s with
                     | Ret obj => [obj]
                     | _ => []
                     end) strings.

Definition notices (literal_eval : string -> outcome value)
    (strings : list string) : list string :=
  flat_map (fun s => match literal_eval s with
                     | Exc e => [evaluation_notice s e]
                     | _ => []
                     end) strings.

(** The evaluator returns on [s], or raises what the loop catches. *)
Definition evaluates_or_is_caught (literal_eval : string -> outcome value)
    (s : string) : Prop :=
  match literal_eval s with
  | Ret _ => True
  | Exc e => caught_on_evaluation e = true
  | Undef => False
  end.

(* ================================================================== *)
(** * Properties *)

(** ** Strings *)

Lemma chars_str_of (l : list ascii) : chars (str_of l) = l.
Proof. apply list_ascii_of_string_of_list_ascii. Qed.

Lemma str_of_chars (s : string) : str_of (chars s) = s.
Proof. apply string_of_list_ascii_of_string. Qed.

Lemma length_chars (s : string) : List.length (chars s) = String.length s.
Proof. induction s as [| c s IH]; simpl; [reflexivity | f_equal; exact IH]. Qed.

Lemma str_of_app (l1 l2 : list ascii) :
  str_of (l1 ++ l2) = (str_of l1 ++ str_of l2)%string.
Proof. induction l1 as [| c l1 IH]; simpl; [reflexivity | f_equal; exact IH]. Qed.

Lemma append_assoc (a b c : string) :
  ((a ++ b) ++ c)%string = (a ++ (b ++ c))%string.
Proof. induction a as [| x a IH]; simpl; [reflexivity | f_equal; exact IH]. Qed.

Lemma length_append (a b : string) :
  String.length (a ++ b) = (String.length a + String.length b)%nat.
Proof. induction a as [| x a IH]; simpl; [reflexivity | f_equal; exact IH]. Qed.







(** ** Lists *)

Lemma StronglySorted_app {A : Type} (R : A -> A -> Prop) (l1 l2 : list A) :
  StronglySorted R l1 -> StronglySorted R l2 ->
  (forall x y, In x l1 -> In y l2 -> R x y) ->
  StronglySorted R (l1 ++ l2).
Proof.
  intros H1 H2 Hcross. induction H1 as [| a l Hl IH Ha]; simpl.
  - exact H2.
  - constructor.
    + apply IH. intros x y Hx Hy. apply Hcross; [right; exact Hx | exact Hy].
    + apply Forall_app. split; [exact Ha |].
      apply Forall_forall. intros y Hy. apply Hcross; [left; reflexivity | exact Hy].
Qed.

Lemma NoDup_flat_map {A B : Type} (f : A -> list B) (l : list A) :
  NoDup l ->
  (forall x, In x l -> NoDup (f x)) ->
  (forall x y b, In x l -> In y l -> In b (f x) -> In b (f y) -> x = y) ->
  NoDup (flat_map f l).
Proof.
  induction l as [| a l IH]; intros Hnd Hf Hsep; simpl.
  - constructor.
  - inversion Hnd as [| ? ? Hnotin Hnd']; subst.
    assert (Hrest : NoDup (flat_map f l)).
    { apply IH; [exact Hnd' | |].
      - intros x Hx. apply Hf. right; exact Hx.
      - intros x y b Hx Hy. apply Hsep; right; assumption. }
    apply NoDup_app.
    + apply Hf. left; reflexivity.
    + exact Hrest.
    + intros b Hb Hin. apply in_flat_map in Hin. destruct Hin as [y [Hy Hby]].
      assert (a = y).
      { apply (Hsep a y b); [left; reflexivity | right; exact Hy
                             | exact Hb | exact Hby]. }
      subst y. exact (Hnotin Hy).
Qed.

(** ** [get_combinations] *)

Lemma in_product_repeat {A : Type} (pool : list A) (i : nat) (t : list A) :
  In t (product_repeat pool i) <->
  List.length t = i /\ Forall (fun x => In x pool) t.
Proof.
  revert t. induction i as [| i IH]; intros t; simpl.
  - split.
    + intros [H | []]. subst t. split; [reflexivity | constructor].
    + intros [Hlen _]. destruct t; [left; reflexivity | discriminate].
  - rewrite in_flat_map. split.
    + intros [x [Hx Ht]]. apply in_map_iff in Ht.
      destruct Ht as [t' [Heq Ht']]. subst t. apply IH in Ht'.
      destruct Ht' as [Hlen Hall]. split; [simpl; f_equal; exact Hlen |].
      constructor; assumption.
    + intros [Hlen Hall]. destruct t as [| x t']; [discriminate |].
      inversion Hall; subst. exists x. split; [assumption |].
      apply in_map. apply IH. split; [simpl in Hlen; lia | assumption].
Qed.

Lemma NoDup_product_repeat {A : Type} (pool : list A) (i : nat) :
  NoDup pool -> NoDup (product_repeat pool i).
Proof.
  intros Hpool. induction i as [| i IH]; simpl.
  - constructor; [intros [] | constructor].
  - apply NoDup_flat_map.
    + exact Hpool.
    + intros x _. apply Injective_map_NoDup; [| exact IH].
      intros a b Hab. inversion Hab. reflexivity.
    + intros x y b _ _ Hbx Hby.
      apply in_map_iff in Hbx. destruct Hbx as [tx [Hx _]].
      apply in_map_iff in Hby. destruct Hby as [ty [Hy _]].
      subst b. inversion Hy. reflexivity.
Qed.

Lemma keeps_iff (m : string) (comb : list string) :
  keeps (Some m) comb = true <-> exists front, comb = front ++ [m].
Proof.
  unfold keeps. split.
  - destruct (rev comb) as [| x r] eqn:Hrev; [discriminate |].
    intros Heq. apply String.eqb_eq in Heq. subst x.
    exists (rev r). rewrite <- (rev_involutive comb), Hrev. reflexivity.
  - intros [front Heq]. subst comb. rewrite rev_app_distr. simpl.
    apply String.eqb_refl.
Qed.

Lemma in_kept_tuples (marks : list string) (n : Z) (e : option string)
    (comb : list string) :
  In comb (kept_tuples marks n e) <->
  (1 <= List.length comb <= Z.to_nat n)%nat
  /\ Forall (fun m => In m marks) comb
  /\ keeps e comb = true.
Proof.
  unfold kept_tuples. rewrite in_flat_map. split.
  - intros [i [Hi Hin]]. apply in_seq in Hi. apply filter_In in Hin.
    destruct Hin as [Hin Hk]. apply in_product_repeat in Hin.
    destruct Hin as [Hlen Hall]. repeat split; try assumption; lia.
  - intros [Hlen [Hall Hk]]. exists (List.length comb). split.
    + apply in_seq. lia.
    + apply filter_In. split; [| exact Hk].
      apply in_product_repeat. split; [reflexivity | exact Hall].
Qed.

Lemma blocks_sorted_by_length {A : Type} (block : nat -> list (list A))
    (a k : nat) :
  (forall i t, In t (block i) -> List.length t = i) ->
  StronglySorted (fun t u => (List.length t <= List.length u)%nat)
    (flat_map block (seq a k)).
Proof.
  intros Hblock. revert a. induction k as [| k IH]; intros a; simpl.
  - constructor.
  - apply StronglySorted_app.
    + assert (Hall : Forall (fun t => List.length t = a) (block a)).
      { apply Forall_forall. intros t Ht. apply Hblock. exact Ht. }
      induction Hall as [| t ts Ht Hts IHts]; constructor.
      * exact IHts.
      * apply Forall_forall. intros u Hu.
        rewrite Forall_forall in Hts. rewrite Ht, (Hts u Hu). constructor.
    + apply IH.
    + intros t u Ht Hu. apply in_flat_map in Hu. destruct Hu as [i [Hi Hu]].
      apply in_seq in Hi. rewrite (Hblock _ _ Ht), (Hblock _ _ Hu). lia.
Qed.

Lemma kept_tuples_sorted (marks : list string) (n : Z) (e : option string) :
  StronglySorted (fun t u => (List.length t <= List.length u)%nat)
    (kept_tuples marks n e).
Proof.
  unfold kept_tuples. apply blocks_sorted_by_length.
  intros i t Ht. apply filter_In in Ht. destruct Ht as [Ht _].
  apply in_product_repeat in Ht. tauto.
Qed.

Lemma kept_tuples_NoDup (marks : list string) (n : Z) (e : option string) :
  NoDup marks -> NoDup (kept_tuples marks n e).
Proof.
  intros Hmarks. unfold kept_tuples. apply NoDup_flat_map.
  - apply seq_NoDup.
  - intros i _. apply NoDup_filter. apply NoDup_product_repeat. exact Hmarks.
  - intros i j t _ _ Hi Hj.
    apply filter_In in Hi. destruct Hi as [Hi _].
    apply filter_In in Hj. destruct Hj as [Hj _].
    apply in_product_repeat in Hi. apply in_product_repeat in Hj. lia.
Qed.

Lemma append_empty_r (s : string) : (s ++ "")%string = s.
Proof. induction s as [| c s IH]; simpl; [reflexivity | f_equal; exact IH]. Qed.

Lemma join_cons (x : string) (parts : list string) :
  join (x :: parts) = (x ++ join parts)%string.
Proof.
  unfold join. destruct parts as [| y rest]; simpl.
  - symmetry. apply append_empty_r.
  - reflexivity.
Qed.

Lemma join_snoc (front : list string) (m : string) :
  join (front ++ [m]) = (join front ++ m)%string.
Proof.
  induction front as [| x front IH].
  - simpl. reflexivity.
  - change ((x :: front) ++ [m]) with (x :: (front ++ [m])).
    rewrite !join_cons, IH. symmetry. apply append_assoc.
Qed.

Lemma join_length (parts : list string) :
  Forall (fun m => String.length m = 1%nat) parts ->
  String.length (join parts) = List.length parts.
Proof.
  induction 1 as [| x parts Hx _ IH]; [reflexivity |].
  rewrite join_cons, length_append, Hx, IH. reflexivity.
Qed.

Lemma StronglySorted_map_in {A B : Type} (R : A -> A -> Prop)
    (R' : B -> B -> Prop) (f : A -> B) (l : list A) :
  (forall a b, In a l -> In b l -> R a b -> R' (f a) (f b)) ->
  StronglySorted R l -> StronglySorted R' (map f l).
Proof.
  intros Hf Hsorted. induction Hsorted as [| a l Hl IH Ha]; simpl.
  - constructor.
  - constructor.
    + apply IH. intros x y Hx Hy. apply Hf; right; assumption.
    + apply Forall_forall. intros y Hy. apply in_map_iff in Hy.
      destruct Hy as [b [Hb Hin]]. subst y.
      rewrite Forall_forall in Ha.
      apply Hf; [left; reflexivity | right; exact Hin | apply Ha; exact Hin].
Qed.

(** C6.  [get_combinations] returns the joins of a list of tuples that
    holds exactly the tuples over the marks of length 1 to [n] whose last
    mark is the required end mark (each once when the marks are distinct),
    shorter tuples before longer ones.  So every string returned ends with
    the end mark, and when the marks are single characters the strings come
    in order of length. *)
Theorem get_combinations_enumerates (candidate_marks : list string) (n : Z)
    (should_end_mark : string) :
  let combinations :=
    get_combinations candidate_marks n (Some should_end_mark) in
  (exists tuples : list (list string),
     combinations = map join tuples
     /\ (forall comb,
           In comb tuples <->
           (1 <= Z.of_nat (List.length comb) <= n)%Z
           /\ Forall (fun m => In m candidate_marks) comb
           /\ exists front, comb = front ++ [should_end_mark])
     /\ StronglySorted
          (fun t u => (List.length t <= List.length u)%nat) tuples
     /\ (NoDup candidate_marks -> NoDup tuples))
  /\ Forall (fun s => exists front, s = (front ++ should_end_mark)%string)
       combinations
  /\ (Forall (fun m => String.length m = 1%nat) candidate_marks ->
      StronglySorted
        (fun s t => (String.length s <= String.length t)%nat) combinations).
Proof.
  intros combinations. subst combinations. unfold get_combinations.
  set (tuples := kept_tuples candidate_marks n (Some should_end_mark)).
  assert (Hin : forall comb,
             In comb tuples <->
             (1 <= Z.of_nat (List.length comb) <= n)%Z
             /\ Forall (fun m => In m candidate_marks) comb
             /\ exists front, comb = front ++ [should_end_mark]).
  { intros comb. unfold tuples. rewrite in_kept_tuples, keeps_iff.
    split; intros [Hlen [Hall Hlast]]; (split; [lia | split; assumption]). }
  split; [| split].
  - exists tuples. split; [reflexivity |]. split; [exact Hin |]. split.
    + apply kept_tuples_sorted.
    + apply kept_tuples_NoDup.
  - apply Forall_forall. intros s Hs. apply in_map_iff in Hs.
    destruct Hs as [comb [Hjoin Hcomb]]. apply Hin in Hcomb.
    destruct Hcomb as [_ [_ [front Hfront]]]. subst comb s.
    exists (join front). apply join_snoc.
  - intros Hsingle.
    apply (StronglySorted_map_in
             (fun t u => (List.length t <= List.length u)%nat));
      [| apply kept_tuples_sorted].
    assert (Hlen : forall comb, In comb tuples ->
                     String.length (join comb) = List.length comb).
    { intros comb Hcomb. apply join_length. apply Hin in Hcomb.
      destruct Hcomb as [_ [Hall _]].
      eapply Forall_impl; [| exact Hall].
      intros m Hm. rewrite Forall_forall in Hsingle. apply Hsingle. exact Hm. }
    intros a b Ha Hb Hab. rewrite (Hlen a Ha), (Hlen b Hb). exact Hab.
Qed.

(** ** [find_max_length] *)

Section FindMaxLengthFacts.
Context {A : Type}.
Variable strlen : A -> nat.

Lemma insert_desc_perm (x : A) (l : list A) :
  Permutation (x :: l) (insert_desc strlen x l).
Proof.
  induction l as [| y rest IH]; simpl.
  - apply Permutation_refl.
  - destruct (strlen y <=? strlen x)%nat.
    + apply Permutation_refl.
    + eapply perm_trans; [apply perm_swap |].
      apply perm_skip. exact IH.
Qed.

Lemma sorted_desc_perm (l : list A) :
  Permutation l (sorted_desc strlen l).
Proof.
  induction l as [| x rest IH]; simpl.
  - constructor.
  - eapply perm_trans; [apply perm_skip; exact IH |].
    apply insert_desc_perm.
Qed.

Lemma insert_desc_sorted (x : A) (l : list A) :
  StronglySorted (not_shorter strlen) l ->
  StronglySorted (not_shorter strlen) (insert_desc strlen x l).
Proof.
  induction 1 as [| y rest Hrest IH Hy]; simpl.
  - constructor; constructor.
  - destruct (strlen y <=? strlen x)%nat eqn:Hcmp.
    + apply Nat.leb_le in Hcmp. constructor.
      * constructor; assumption.
      * constructor; [exact Hcmp |].
        eapply Forall_impl; [| exact Hy].
        unfold not_shorter. intros z Hz. lia.
    + apply Nat.leb_gt in Hcmp. constructor; [exact IH |].
      apply (Permutation_Forall (insert_desc_perm x rest)).
      constructor; [unfold not_shorter; lia | exact Hy].
Qed.

Lemma sorted_desc_sorted (l : list A) :
  StronglySorted (not_shorter strlen) (sorted_desc strlen l).
Proof.
  induction l as [| x rest IH]; simpl.
  - constructor.
  - apply insert_desc_sorted. exact IH.
Qed.

(** Stability: elements with the same key keep their order. *)
Lemma insert_desc_stable (k : nat) (x : A) (l : list A) :
  filter (has_length strlen k) (insert_desc strlen x l)
  = filter (has_length strlen k) (x :: l).
Proof.
  induction l as [| y rest IH]; [reflexivity |].
  simpl insert_desc.
  destruct (strlen y <=? strlen x)%nat eqn:Hcmp; [reflexivity |].
  apply Nat.leb_gt in Hcmp.
  change (filter (has_length strlen k) (y :: insert_desc strlen x rest))
    with (if has_length strlen k y
          then y :: filter (has_length strlen k) (insert_desc strlen x rest)
          else filter (has_length strlen k) (insert_desc strlen x rest)).
  rewrite IH. simpl. unfold has_length.
  destruct (strlen x =? k)%nat eqn:Hx; destruct (strlen y =? k)%nat eqn:Hy;
    try reflexivity.
  apply Nat.eqb_eq in Hx. apply Nat.eqb_eq in Hy. lia.
Qed.

Lemma sorted_desc_stable (k : nat) (l : list A) :
  filter (has_length strlen k) (sorted_desc strlen l) = filter (has_length strlen k) l.
Proof.
  induction l as [| x rest IH]; [reflexivity |].
  simpl sorted_desc. rewrite insert_desc_stable. simpl. rewrite IH.
  reflexivity.
Qed.

Lemma fold_max_bounds (rest : list A) (m0 : nat) :
  let m := fold_left (fun m y => Nat.max m (strlen y)) rest m0 in
  (m0 <= m)%nat
  /\ Forall (fun y => (strlen y <= m)%nat) rest
  /\ (m = m0 \/ exists y, In y rest /\ strlen y = m).
Proof.
  revert m0. induction rest as [| y rest IH]; intros m0; simpl.
  - split; [lia | split; [constructor | left; reflexivity]].
  - destruct (IH (Nat.max m0 (strlen y))) as [Hle [Hall Hwit]].
    split; [lia |]. split.
    + constructor; [lia | exact Hall].
    + destruct Hwit as [Heq | [z [Hz Hzm]]].
      * destruct (Nat.max_spec m0 (strlen y)) as [[_ Hmax] | [_ Hmax]].
        -- right. exists y. split; [left; reflexivity | lia].
        -- left. lia.
      * right. exists z. split; [right; exact Hz | exact Hzm].
Qed.

Lemma max_of_spec (l : list A) (m : nat) :
  max_of strlen l = Ret m ->
  Forall (fun y => (strlen y <= m)%nat) l
  /\ exists y, In y l /\ strlen y = m.
Proof.
  destruct l as [| x rest]; simpl; [discriminate |].
  intros Heq. injection Heq as Heq.
  destruct (fold_max_bounds rest (strlen x)) as [Hle [Hall Hwit]].
  rewrite Heq in Hle, Hall, Hwit. split.
  - constructor; assumption.
  - destruct Hwit as [Hm | [y [Hy Hym]]].
    + exists x. split; [left; reflexivity | lia].
    + exists y. split; [right; exact Hy | exact Hym].
Qed.

(** [next] returns the first element of the filtered list. *)
Lemma next_with_filter (m : nat) (l : list A) :
  next_with strlen m l
  = match filter (has_length strlen m) l with
    | x :: _ => Ret x
    | [] => raise StopIteration ""
    end.
Proof.
  induction l as [| x rest IH]; simpl; [reflexivity |].
  unfold has_length at 1. destruct (strlen x =? m)%nat; [reflexivity | exact IH].
Qed.

Lemma head_of_sorted_is_longest (l : list A) (m : nat) :
  StronglySorted (not_shorter strlen) l ->
  Forall (fun y => (strlen y <= m)%nat) l ->
  (exists y, In y l /\ strlen y = m) ->
  exists x rest, l = x :: rest /\ strlen x = m.
Proof.
  intros Hsorted Hall [y [Hy Hym]].
  destruct l as [| x rest]; [destruct Hy |].
  exists x, rest. split; [reflexivity |].
  inversion Hall as [| ? ? Hx _]; subst.
  destruct Hy as [Hy | Hy]; [subst; reflexivity |].
  inversion Hsorted as [| ? ? _ Hhead]; subst.
  rewrite Forall_forall in Hhead. specialize (Hhead y Hy).
  unfold not_shorter in Hhead. lia.
Qed.
End FindMaxLengthFacts.

(** C5.  On a non-empty list [find_max_length] returns a dictionary whose
    suggestions are the input in a stable order of non-increasing rendering
    length, whose completion is at least as long as every suggestion, and
    whose completion is the first suggestion. *)
Theorem find_max_length_ranks {A : Type} (strlen : A -> nat)
    (data_list : list A) :
  data_list <> [] ->
  exists r,
    find_max_length strlen data_list = Ret r
    /\ Permutation data_list (suggestions r)
    /\ StronglySorted (fun a b => (strlen b <= strlen a)%nat) (suggestions r)
    /\ (forall k,
          filter (fun a => (strlen a =? k)%nat) (suggestions r)
          = filter (fun a => (strlen a =? k)%nat) data_list)
    /\ Forall (fun a => (strlen a <= strlen (completion r))%nat)
         (suggestions r)
    /\ hd_error (suggestions r) = Some (completion r).
Proof.
  intros Hne. unfold find_max_length.
  destruct (max_of strlen data_list) as [m | e |] eqn:Hmax;
    try (destruct data_list; [contradiction | discriminate]).
  destruct (max_of_spec strlen data_list m Hmax) as [Hall Hwit].
  pose proof (sorted_desc_perm strlen data_list) as Hperm.
  pose proof (sorted_desc_sorted strlen data_list) as Hsorted.
  assert (Hall' : Forall (fun y => (strlen y <= m)%nat)
                    (sorted_desc strlen data_list))
    by (apply (Permutation_Forall Hperm); exact Hall).
  assert (Hwit' : exists y, In y (sorted_desc strlen data_list)
                            /\ strlen y = m).
  { destruct Hwit as [y [Hy Hym]]. exists y. split; [| exact Hym].
    apply (Permutation_in _ Hperm). exact Hy. }
  destruct (head_of_sorted_is_longest strlen _ m Hsorted Hall' Hwit')
    as [x [rest [Hshape Hxm]]].
  assert (Hnext : next_with strlen m data_list = Ret x).
  { rewrite next_with_filter, <- sorted_desc_stable, Hshape. simpl.
    unfold has_length. rewrite Hxm, Nat.eqb_refl. reflexivity. }
  simpl. rewrite Hnext. simpl. eexists. split; [reflexivity |]. simpl.
  repeat split.
  - exact Hperm.
  - exact Hsorted.
  - intros k. apply sorted_desc_stable.
  - rewrite Hxm. exact Hall'.
  - rewrite Hshape. reflexivity.
Qed.

(** ** [complete_json_object] *)

Section CompleteJsonObject.
Variable json_loads : string -> outcome value.

End CompleteJsonObject.


(** ** Method calls with a missing [self] *)

Section MethodCalls.
Variable py_eval : string -> outcome value.
Variable json_loads : string -> outcome value.
Variable py_str : value -> string.



(** Every round of the loop ends in its [except Exception: pass]. *)
Lemma collect_completions_keeps (json_str : string)
    (completion_strs : list string) (completions : list value) :
  collect_completions json_loads json_str completion_strs completions
  = Ret completions.
Proof.
  revert completions.
  induction completion_strs as [| c rest IH]; intros completions; simpl.
  - reflexivity.
  - apply IH.
Qed.




Lemma fit_after_base_exception (json_str : string) (n : Z) (e : exn) :
  py_eval json_str = Exc e ->
  isinstance e Exception = false ->
  fit py_eval json_loads py_str json_str n = Exc e.
Proof. intros H Hcls. unfold fit. rewrite H. simpl. rewrite Hcls. reflexivity. Qed.

Lemma fit_after_undef (json_str : string) (n : Z) :
  py_eval json_str = Undef ->
  fit py_eval json_loads py_str json_str n = Undef.
Proof. intros H. unfold fit. rewrite H. reflexivity. Qed.

End MethodCalls.



(** An exception that does not derive from [Exception] passes through
    [fit]. *)
Lemma fit_lets_base_exceptions_through
    (py_eval json_loads : string -> outcome value) (py_str : value -> string)
    (json_str : string) (max_completion_length : Z) (e : exn) :
  py_eval json_str = Exc e ->
  isinstance e Exception = false ->
  fit py_eval json_loads py_str json_str max_completion_length = Exc e.
Proof. apply fit_after_base_exception. Qed.

(** ** Candidate marks *)





(** ** What [fit] depends on *)

(** [get_possible_completions] always ends in the same way, chosen by the
    text alone. *)
Lemma get_possible_completions_ends
    (json_loads : string -> outcome value) (py_str : value -> string)
    (json_str : string) (n : Z) :
  get_possible_completions json_loads py_str json_str n
  = Exc (search_error json_str).
Proof.
  unfold get_possible_completions, should_end_mark_of, search_error.
  destruct (chars (strip json_str)) as [| c rest]; simpl; [reflexivity |].
  rewrite collect_completions_keeps. reflexivity.
Qed.

(** What [fit] returns on the reference runtime is what it returns on
    every runtime whose [eval] extends the reference evaluator. *)
Lemma fit_extends
    (py_eval json_loads : string -> outcome value) (py_str : value -> string)
    (json_str : string) (n : Z) :
  extends py_eval PyRef.eval ->
  Ref.fit json_str n <> Undef ->
  fit py_eval json_loads py_str json_str n = Ref.fit json_str n.
Proof.
  intros Hext Hdef. unfold Ref.fit in *.
  assert (Heval : PyRef.eval json_str <> Undef).
  { intros H. apply Hdef. apply fit_after_undef. exact H. }
  specialize (Hext json_str Heval). unfold fit.
  rewrite Hext, !get_possible_completions_ends. reflexivity.
Qed.

(** ** The scan of [extract_complete_objects] *)

Lemma leaf_body_ends (opening closing : ascii) (escapable : bool)
    (l : list ascii) :
  forall prev k,
    leaf_body opening closing escapable prev l = Some k ->
    exists front, firstn k l = front ++ [closing].
Proof.
  induction l as [| c rest IH]; intros prev k; simpl; [discriminate |].
  destruct (Ascii.eqb c closing) eqn:Hc.
  - apply Ascii.eqb_eq in Hc. subst c.
    destruct (escapable && Ascii.eqb prev "\"); [discriminate |].
    intros H. injection H as H. subst k. exists []. reflexivity.
  - destruct (Ascii.eqb c opening); [discriminate |].
    destruct (leaf_body opening closing escapable c rest) as [k' |] eqn:Hrec;
      [| discriminate].
    intros H. injection H as H. subst k.
    destruct (IH c k' Hrec) as [front Hfront].
    exists (c :: front). simpl. rewrite Hfront. reflexivity.
Qed.

(** Every match of the pattern ends with a closing bracket or brace. *)
Lemma object_regex_group_closes (l : list ascii) (len : nat) :
  object_regex_group l = Some len ->
  exists is_brace, closing_lookup (str_of (firstn len l)) = Some is_brace.
Proof.
  unfold object_regex_group, closing_lookup, last_char. intros H.
  assert (Hshape : exists front closing,
             firstn len l = front ++ [closing]
             /\ (closing = "]"%char \/ closing = "}"%char)).
  { destruct l as [| c rest]; [discriminate |].
    destruct (Ascii.eqb c "[") eqn:Hc1.
    - apply Ascii.eqb_eq in Hc1. subst c.
      destruct (leaf_body "[" "]" true "[" rest) as [k |] eqn:Hk;
        [| discriminate].
      injection H as H. subst len.
      destruct (leaf_body_ends _ _ _ _ _ _ Hk) as [front Hfront].
      exists ("["%char :: front), "]"%char. simpl. rewrite Hfront.
      split; [reflexivity | left; reflexivity].
    - destruct (Ascii.eqb c "{") eqn:Hc2.
      + apply Ascii.eqb_eq in Hc2. subst c.
        destruct (leaf_body "{" "}" false "{" rest) as [k |] eqn:Hk;
          [| discriminate].
        injection H as H. subst len.
        destruct (leaf_body_ends _ _ _ _ _ _ Hk) as [front Hfront].
        exists ("{"%char :: front), "}"%char. simpl. rewrite Hfront.
        split; [reflexivity | right; reflexivity].
      + exfalso. revert H Hc1 Hc2.
        destruct c as [[] [] [] [] [] [] [] []]; simpl; discriminate. }
  destruct Hshape as [front [closing [Hfront Hclosing]]].
  rewrite chars_str_of, Hfront, rev_app_distr. simpl.
  destruct Hclosing; subst closing; eexists; reflexivity.
Qed.

Lemma object_regex_at_closes (prev : option ascii) (l : list ascii) (len : nat) :
  object_regex_at prev l = Some len ->
  exists is_brace, closing_lookup (str_of (firstn len l)) = Some is_brace.
Proof.
  unfold object_regex_at. destruct prev as [c |].
  - destruct (Ascii.eqb c "\"); [discriminate | apply object_regex_group_closes].
  - apply object_regex_group_closes.
Qed.

Lemma finditer_from_closes (l : list ascii) :
  forall pos prev skip,
    Forall (fun m => exists is_brace, closing_lookup (m_group m) = Some is_brace)
      (finditer_from pos prev skip l).
Proof.
  induction l as [| c rest IH]; intros pos prev skip; simpl; [constructor |].
  destruct skip as [| k]; [| apply IH].
  destruct (object_regex_at prev (c :: rest)) as [len |] eqn:Hm; [| apply IH].
  constructor; [| apply IH].
  simpl. apply (object_regex_at_closes prev). exact Hm.
Qed.

(** A round that starts with an empty stack and zero counters emits its
    match and ends in the same situation. *)
Lemma scan_step_resets (text : string) (st : scan_state) (m : rmatch) :
  stack st = [] -> opening_brace st = 0 -> opening_bracket st = 0 ->
  (exists is_brace, closing_lookup (m_group m) = Some is_brace) ->
  let st' := scan_step text st m in
  stack st' = [] /\ opening_brace st' = 0 /\ opening_bracket st' = 0
  /\ object_strings st'
     = object_strings st ++ [slice text (m_start m) (m_end m)].
Proof.
  intros Hstack Hbrace Hbracket [is_brace Hclose]. unfold scan_step.
  rewrite Hclose, Hstack, Hbrace, Hbracket.
  destruct is_brace; simpl; auto.
Qed.

Lemma scan_fold_resets (text : string) (ms : list rmatch) :
  Forall (fun m => exists is_brace, closing_lookup (m_group m) = Some is_brace)
    ms ->
  forall st,
    stack st = [] -> opening_brace st = 0 -> opening_bracket st = 0 ->
    let st' := fold_left (scan_step text) ms st in
    stack st' = []
    /\ object_strings st'
       = object_strings st
         ++ map (fun m => slice text (m_start m) (m_end m)) ms.
Proof.
  induction 1 as [| m ms Hm Hms IH]; intros st Hstack Hbrace Hbracket; simpl.
  - split; [exact Hstack | symmetry; apply app_nil_r].
  - destruct (scan_step_resets text st m Hstack Hbrace Hbracket Hm)
      as [Hs [Hb1 [Hb2 Hobj]]].
    destruct (IH _ Hs Hb1 Hb2) as [Hstack' Hobj'].
    split; [exact Hstack' |]. rewrite Hobj', Hobj, <- app_assoc. reflexivity.
Qed.

(** The scan emits every match of the pattern as it comes and ends with an
    empty stack: the notice about an incomplete object is never printed. *)
Lemma scan_emits_every_match (text : string) :
  object_strings (scan text)
  = map (fun m => slice text (m_start m) (m_end m)) (finditer text)
  /\ incomplete_notice (scan text) = [].
Proof.
  destruct (scan_fold_resets text (finditer text)
              (finditer_from_closes _ _ _ _) (mk_scan [] 0 0 [] 0)
              eq_refl eq_refl eq_refl) as [Hstack Hobj].
  split; [exact Hobj |].
  unfold incomplete_notice. fold (scan text) in Hstack. rewrite Hstack.
  reflexivity.
Qed.

(** ** Runtimes that extend the reference evaluators *)

Lemma is_valid_json_extends (json_loads : string -> outcome value)
    (input_str : string) :
  extends json_loads JsonRef.loads ->
  Ref.is_valid_json input_str <> Undef ->
  is_valid_json json_loads input_str = Ref.is_valid_json input_str.
Proof.
  intros Hext Hdef. unfold Ref.is_valid_json, is_valid_json in *.
  rewrite Hext; [reflexivity |].
  intros H. apply Hdef. rewrite H. reflexivity.
Qed.

Lemma evaluate_objects_extends (literal_eval : string -> outcome value)
    (strings : list string) :
  extends literal_eval PyRef.literal_eval ->
  forall objects printed,
    snd (evaluate_objects PyRef.literal_eval strings objects printed)
    <> Undef ->
    evaluate_objects literal_eval strings objects printed
    = evaluate_objects PyRef.literal_eval strings objects printed.
Proof.
  intros Hext. induction strings as [| s rest IH]; intros objects printed;
    simpl; [reflexivity |].
  destruct (PyRef.literal_eval s) as [obj | e |] eqn:Href.
  - intros Hdef. rewrite (Hext s), Href by (rewrite Href; discriminate).
    apply IH. exact Hdef.
  - intros Hdef. rewrite (Hext s), Href by (rewrite Href; discriminate).
    destruct (isinstance e ValueError || isinstance e SyntaxError);
      [apply IH; exact Hdef | reflexivity].
  - simpl. intros Hdef. contradiction.
Qed.

(** What [extract_complete_objects] prints and returns on the reference
    runtime is what it does on every runtime whose [ast.literal_eval]
    extends the reference one. *)
Lemma extract_complete_objects_extends
    (literal_eval : string -> outcome value) (text : string) :
  extends literal_eval PyRef.literal_eval ->
  snd (Ref.extract_complete_objects text) <> Undef ->
  extract_complete_objects literal_eval text
  = Ref.extract_complete_objects text.
Proof.
  intros Hext Hdef. unfold Ref.extract_complete_objects in *.
  unfold extract_complete_objects in *.
  apply evaluate_objects_extends; assumption.
Qed.

(** ** The examples of the specification, on the reference runtime *)

(** Witness of C5: two candidates of different rendering lengths. *)
Lemma find_max_length_ranks_witness :
  let strlen := fun element : value => String.length (PyRef.str element) in
  let data_list := [VList [VInt 1]; Examples.a1_b2] in
  data_list <> []
  /\ exists r,
       find_max_length strlen data_list = Ret r
       /\ Permutation data_list (suggestions r)
       /\ StronglySorted (fun a b => (strlen b <= strlen a)%nat)
            (suggestions r)
       /\ (forall k,
             filter (fun a => (strlen a =? k)%nat) (suggestions r)
             = filter (fun a => (strlen a =? k)%nat) data_list)
       /\ Forall (fun a => (strlen a <= strlen (completion r))%nat)
            (suggestions r)
       /\ hd_error (suggestions r) = Some (completion r).
Proof.
  intros strlen data_list.
  split; [discriminate | apply find_max_length_ranks; discriminate].
Defined.

(** C1.  On the truncated object [fit] returns the ["failed"] dictionary,
    not suggestions: the search ends in the [TypeError] of the call
    [self.find_max_length(completions)].  On the whole object it returns
    ["completed"] with the dictionary.  Called as the plain function of its
    docstring, [complete_json_object] does repair the truncated object. *)
Theorem fit_truncated_object_fails :
  Ref.fit Examples.truncated_object 5
  = Ret (mk_fit "failed" None
           (DataError
              "Parser.find_max_length() takes 1 positional argument but 2 were given"))
  /\ Ref.fit Examples.whole_object 5
     = Ret (mk_fit "completed" (Some DictType)
              (DataCompleted Examples.a1_b2 []))
  /\ Ref.complete_json_object Examples.truncated_object "}"
     = Ret Examples.a1_b2.
Proof. repeat split; vm_compute; reflexivity. Qed.

(** C3.  The rendering of [None] as a literal is [null]; [json.loads]
    reads it back and [is_valid_json] accepts it, but [fit] evaluates it as
    a Python expression, where [null] is an unbound name, and returns the
    ["failed"] dictionary. *)
Theorem fit_rendered_null_fails :
  JsonDump.dumps VNone = Ret "null"
  /\ JsonRef.loads "null" = Ret VNone
  /\ Ref.is_valid_json "null" = Ret true
  /\ PyRef.eval "null" = raise NameError "name 'null' is not defined"
  /\ Ref.fit "null" 5
     = Ret (mk_fit "failed" None
              (DataError
                 "Parser.find_max_length() takes 1 positional argument but 2 were given")).
Proof. repeat split; vm_compute; reflexivity. Qed.

(** C8.  From the text with two objects [extract_complete_objects] returns
    both, in order.  From the text with the dangling brace it returns the
    empty list and prints nothing: the pattern finds no match in it, so the
    stack is empty when the notice would be printed. *)
Theorem extract_prints_no_notice :
  Ref.extract_complete_objects Examples.two_objects
  = ([], Ret [VDict [(VStr "a", VInt 1)]; VDict [(VStr "b", VInt 2)]])
  /\ finditer Examples.dangling_object = []
  /\ Ref.extract_complete_objects Examples.dangling_object = ([], Ret []).
Proof. repeat split; vm_compute; reflexivity. Qed.



(** C10.  [{'a': 1}] and [1+1] are not valid JSON, and [fit] returns
    ["completed"] for both: with the dictionary, and with the integer 2. *)
Theorem fit_completes_what_is_not_json :
  (Ref.is_valid_json Examples.single_quoted_object = Ret false
   /\ Ref.fit Examples.single_quoted_object 5
      = Ret (mk_fit "completed" (Some DictType)
               (DataCompleted (VDict [(VStr "a", VInt 1)]) [])))
  /\ (Ref.is_valid_json Examples.sum = Ret false
      /\ Ref.fit Examples.sum 5
         = Ret (mk_fit "completed" (Some IntType)
                  (DataCompleted (VInt 2) []))).
Proof. repeat split; vm_compute; reflexivity. Qed.

(** ** Instances of the general results *)




(** ** Further checks of the model against the source *)

(** The three examples in the docstring of [complete_json_object]. *)
Example complete_json_object_docstring :
  Ref.complete_json_object Examples.truncated_object "}" = Ret Examples.a1_b2
  /\ Ref.complete_json_object
       (Examples.whole_object ++ "}}}}}}}}}}}}}}}}}}")%string ""
     = Ret Examples.a1_b2
  /\ Ref.complete_json_object Examples.truncated_object ""
     = raise ValueError "Couldn't fix JSON".
Proof. repeat split; vm_compute; reflexivity. Qed.

(** The attempts on a text that ends in a comma: the whole text, then the
    text without the comma. *)
Example parse_attempts_after_comma :
  Ref.parse_attempts (Examples.truncated_object ++ ",")%string "}"
  = [(Examples.truncated_object ++ ",}")%string; Examples.whole_object].
Proof. vm_compute. reflexivity. Qed.

(** The completion strings tried for a text with both kinds of bracket. *)
Example get_combinations_both_marks :
  get_combinations ["}"; "]"] 3 (Some "}")
  = ["}"; "}}"; "]}"; "}}}"; "}]}"; "]}}"; "]]}"].
Proof. vm_compute. reflexivity. Qed.

(** An empty text: the search ends in the [IndexError] of
    [json_str.strip()[0]]. *)
Example fit_empty_text :
  Ref.fit "" 5
  = Ret (mk_fit "failed" None (DataError "string index out of range")).
Proof. vm_compute. reflexivity. Qed.

(** Nested brackets: the pattern finds groups without an inner bracket of
    their own kind, and each is emitted at once; nothing is printed for the
    open brace at the end. *)
Example extract_nested :
  Ref.extract_complete_objects "x [1, [2, 3], 4] y {5: [6]} z {7"
  = ([], Ret [VList [VInt 2; VInt 3]; VDict [(VInt 5, VList [VInt 6])]]).
Proof. vm_compute. reflexivity. Qed.

(** The renderings of [true] and of a list that holds [null] fail in the
    same way as [null]; a rendering without booleans and [null] is
    evaluated to the value it renders. *)
Example fit_rendered_values :
  status_of (bind (JsonDump.dumps (VBool true)) (fun s => Ref.fit s 5))
  = Some "failed"
  /\ status_of
       (bind (JsonDump.dumps (VList [VInt 1; VNone])) (fun s => Ref.fit s 5))
     = Some "failed"
  /\ bind (JsonDump.dumps (VList [VInt 1; VStr "x"; Examples.a1_b2]))
       (fun s => Ref.fit s 5)
     = Ret (mk_fit "completed" (Some ListType)
              (DataCompleted (VList [VInt 1; VStr "x"; Examples.a1_b2]) [])).
Proof. repeat split; vm_compute; reflexivity. Qed.

(* ================================================================== *)
(** * Further properties of the code *)

(** ** [complete_json_object]: which prefix is parsed *)

Lemma take_length (k : nat) (s : string) :
  (k <= String.length s)%nat -> String.length (take k s) = k.
Proof.
  intros Hk. unfold take. rewrite <- length_chars, chars_str_of.
  rewrite length_firstn, length_chars. lia.
Qed.

Lemma take_all (s : string) : take (String.length s) s = s.
Proof.
  unfold take. rewrite <- length_chars, firstn_all. apply str_of_chars.
Qed.

Lemma take_is_prefix (k : nat) (s : string) : is_prefix (take k s) s.
Proof.
  exists (str_of (skipn k (chars s))). unfold take.
  rewrite <- str_of_app, firstn_skipn. symmetry. apply str_of_chars.
Qed.

Lemma drop_last_take (k : nat) (s : string) :
  (k < String.length s)%nat -> drop_last (take (S k) s) = take k s.
Proof.
  intros Hk. unfold drop_last, take. rewrite chars_str_of.
  rewrite removelast_firstn; [reflexivity |]. rewrite length_chars. exact Hk.
Qed.

Lemma take_nonempty (k : nat) (s : string) :
  (1 <= k <= String.length s)%nat -> String.eqb (take k s) "" = false.
Proof.
  intros Hk. apply String.eqb_neq. intros Heq.
  pose proof (take_length k s (proj2 Hk)) as Hlen.
  rewrite Heq in Hlen. simpl in Hlen. lia.
Qed.

Lemma attempts_down_step (text suffix : string) (lo hi : nat) :
  (lo <= S hi)%nat ->
  attempts_down text suffix lo (S hi)
  = (take (S hi) text ++ suffix)%string :: attempts_down text suffix lo hi.
Proof.
  intros Hlo. unfold attempts_down.
  replace (S (S hi) - lo)%nat with (S (S hi - lo)) by lia.
  rewrite seq_S, rev_app_distr.
  replace (lo + (S hi - lo))%nat with (S hi) by lia. reflexivity.
Qed.

Section WhichPrefix.
Variable json_loads : string -> outcome value.
Variables text suffix : string.

(** Whether an attempt is a decode failure can be decided from its
    outcome. *)
Lemma decode_fails_dec (s : string) :
  {decode_fails json_loads s} + {~ decode_fails json_loads s}.
Proof.
  unfold decode_fails. destruct (json_loads s) as [v | e |].
  - right. intros [e [H _]]. discriminate.
  - destruct (isinstance e JSONDecodeError) eqn:Hcls.
    + left. exists e. split; [reflexivity | exact Hcls].
    + right. intros [e' [H Hcls']]. injection H as H. subst e'.
      rewrite Hcls in Hcls'. discriminate.
  - right. intros [e [H _]]. discriminate.
Qed.

(** From [text[:lo + d]] the loop walks down to [text[:lo]], the first
    length at which the attempt is not a decode failure, and ends with the
    outcome of that attempt. *)
Lemma loop_walks_down (d : nat) :
  forall lo fuel,
    (1 <= lo)%nat -> (lo + d <= String.length text)%nat ->
    (lo + d < fuel)%nat ->
    (forall j, (lo < j <= lo + d)%nat ->
               decode_fails json_loads (take j text ++ suffix)) ->
    ~ decode_fails json_loads (take lo text ++ suffix) ->
    complete_json_object_loop json_loads fuel (take (lo + d) text) suffix
    = (attempts_down text suffix lo (lo + d),
       json_loads (take lo text ++ suffix)).
Proof.
  induction d as [| d IH]; intros lo fuel Hlo Hhi Hfuel Hfail Hstop.
  - rewrite Nat.add_0_r in *. destruct fuel as [| fuel]; [lia |].
    simpl. rewrite take_nonempty by lia.
    unfold attempts_down. replace (S lo - lo)%nat with 1%nat by lia. simpl.
    destruct (json_loads (take lo text ++ suffix)) as [v | e |] eqn:Hload;
      try reflexivity.
    destruct (isinstance e JSONDecodeError) eqn:Hcls; [| reflexivity].
    exfalso. apply Hstop. exists e. split; [exact Hload | exact Hcls].
  - destruct fuel as [| fuel]; [lia |].
    simpl. rewrite take_nonempty by lia.
    destruct (Hfail (lo + S d)%nat) as [e [Hload Hcls]]; [lia |].
    rewrite Hload, Hcls.
    replace (lo + S d)%nat with (S (lo + d)) at 1 by lia.
    rewrite drop_last_take by lia.
    rewrite (IH lo fuel); try lia; try assumption.
    + replace (lo + S d)%nat with (S (lo + d)) by lia.
      rewrite attempts_down_step by lia. reflexivity.
    + intros j Hj. apply Hfail. lia.
Qed.

(** When every attempt is a decode failure the loop walks down to the
    empty text and raises. *)
Lemma loop_walks_out (d : nat) :
  forall fuel,
    (d <= String.length text)%nat -> (d < fuel)%nat ->
    (forall j, (1 <= j <= d)%nat ->
               decode_fails json_loads (take j text ++ suffix)) ->
    complete_json_object_loop json_loads fuel (take d text) suffix
    = (attempts_down text suffix 1 d, raise ValueError "Couldn't fix JSON").
Proof.
  induction d as [| d IH]; intros fuel Hhi Hfuel Hfail.
  - destruct fuel as [| fuel]; [lia |]. reflexivity.
  - destruct fuel as [| fuel]; [lia |].
    simpl. rewrite take_nonempty by lia.
    destruct (Hfail (S d)) as [e [Hload Hcls]]; [lia |].
    rewrite Hload, Hcls, drop_last_take by lia.
    rewrite (IH fuel); try lia.
    + rewrite attempts_down_step by lia. reflexivity.
    + intros j Hj. apply Hfail. lia.
Qed.

(** Going down from [n], either every length fails to decode, or there is
    a first one that does not. *)
Lemma first_that_stops (n : nat) :
  (forall j, (1 <= j <= n)%nat ->
             decode_fails json_loads (take j text ++ suffix))
  \/ exists k, (1 <= k <= n)%nat
       /\ ~ decode_fails json_loads (take k text ++ suffix)
       /\ forall j, (k < j <= n)%nat ->
                    decode_fails json_loads (take j text ++ suffix).
Proof.
  induction n as [| n IH].
  - left. intros j Hj. lia.
  - destruct (decode_fails_dec (take (S n) text ++ suffix)) as [Hfail | Hstop].
    + destruct IH as [Hall | [k [Hk [Hstop Hafter]]]].
      * left. intros j Hj. destruct (Nat.eq_dec j (S n)) as [-> | Hne];
          [exact Hfail | apply Hall; lia].
      * right. exists k. split; [lia |]. split; [exact Hstop |].
        intros j Hj. destruct (Nat.eq_dec j (S n)) as [-> | Hne];
          [exact Hfail | apply Hafter; lia].
    + right. exists (S n). split; [lia |]. split; [exact Hstop |].
      intros j Hj. lia.
Qed.
End WhichPrefix.

(** X1.  [complete_json_object] tries [text[:j] + suffix] for [j] from
    [len(text)] downwards and stops at the first [j >= 1] whose attempt is
    not a [JSONDecodeError]: its outcome is the outcome of [json.loads] on
    that text, so a value it returns is the parse of the longest non-empty
    prefix that parses with the suffix.  If every such attempt is a decode
    failure it raises [ValueError("Couldn't fix JSON")]. *)
Theorem complete_json_object_first_to_parse
    (json_loads : string -> outcome value) (text suffix : string) :
  let n := String.length text in
  (exists k,
     (1 <= k <= n)%nat
     /\ ~ decode_fails json_loads (take k text ++ suffix)%string
     /\ (forall j, (k < j <= n)%nat ->
                   decode_fails json_loads (take j text ++ suffix)%string)
     /\ complete_json_object json_loads text suffix
        = json_loads (take k text ++ suffix)%string
     /\ parse_attempts json_loads text suffix
        = attempts_down text suffix k n)
  \/ ((forall j, (1 <= j <= n)%nat ->
                 decode_fails json_loads (take j text ++ suffix)%string)
      /\ complete_json_object json_loads text suffix
         = raise ValueError "Couldn't fix JSON"
      /\ parse_attempts json_loads text suffix
         = attempts_down text suffix 1 n).
Proof.
  intros n. subst n. unfold complete_json_object, parse_attempts,
    complete_json_object_run.
  destruct (first_that_stops json_loads text suffix (String.length text))
    as [Hall | [k [Hk [Hstop Hafter]]]].
  - right. split; [exact Hall |].
    pose proof (loop_walks_out json_loads text suffix (String.length text)
                  (S (String.length text)) (Nat.le_refl _)
                  (Nat.lt_succ_diag_r _) Hall) as Hrun.
    rewrite take_all in Hrun. rewrite Hrun. split; reflexivity.
  - left. exists k. split; [exact Hk |]. split; [exact Hstop |].
    split; [exact Hafter |].
    pose proof (loop_walks_down json_loads text suffix
                  (String.length text - k) k (S (String.length text)))
      as Hrun.
    replace (k + (String.length text - k))%nat
      with (String.length text) in Hrun by lia.
    rewrite take_all in Hrun.
    rewrite Hrun; try lia; try assumption.
    split; reflexivity.
Qed.

(** X2.  The suffix is never tried on its own: when every non-empty prefix
    of the text fails to decode with the suffix, [complete_json_object]
    raises [ValueError("Couldn't fix JSON")] whatever [json.loads] makes of
    the suffix alone, and the suffix is not among the texts tried. *)
Theorem complete_json_object_skips_bare_suffix
    (json_loads : string -> outcome value) (text suffix : string) :
  (forall j, (1 <= j <= String.length text)%nat ->
             decode_fails json_loads (take j text ++ suffix)%string) ->
  complete_json_object json_loads text suffix
  = raise ValueError "Couldn't fix JSON"
  /\ List.length (parse_attempts json_loads text suffix) = String.length text
  /\ ~ In suffix (parse_attempts json_loads text suffix).
Proof.
  intros Hall.
  pose proof (loop_walks_out json_loads text suffix (String.length text)
                (S (String.length text)) (Nat.le_refl _)
                (Nat.lt_succ_diag_r _) Hall) as Hrun.
  rewrite take_all in Hrun.
  unfold complete_json_object, parse_attempts, complete_json_object_run.
  rewrite Hrun. simpl. split; [reflexivity |]. split.
  - unfold attempts_down. rewrite length_map, length_rev, length_seq. lia.
  - unfold attempts_down. intros Hin. apply in_map_iff in Hin.
    destruct Hin as [j [Heq Hj]]. apply in_rev in Hj. apply in_seq in Hj.
    assert (Hlen : String.length (take j text ++ suffix)%string
                   = String.length suffix) by (rewrite Heq; reflexivity).
    rewrite length_append, take_length in Hlen by lia. lia.
Qed.

(** Witness of X2: the text [x] before the suffix [{}].  The suffix alone
    is valid JSON, the one attempt [x{}] is not. *)
Lemma complete_json_object_skips_bare_suffix_witness :
  JsonRef.loads "{}" = Ret (VDict [])
  /\ complete_json_object JsonRef.loads "x" "{}"
     = raise ValueError "Couldn't fix JSON"
  /\ List.length (parse_attempts JsonRef.loads "x" "{}") = 1%nat
  /\ ~ In "{}" (parse_attempts JsonRef.loads "x" "{}").
Proof.
  split; [vm_compute; reflexivity |].
  apply (complete_json_object_skips_bare_suffix JsonRef.loads "x" "{}").
  intros j Hj. simpl in Hj. assert (j = 1%nat) by lia. subst j.
  exists JsonRef.decode_error. split; vm_compute; reflexivity.
Defined.

(** ** [is_valid_json] *)

(** A [JSONDecodeError] is a [ValueError]. *)
Lemma decode_error_is_value_error (e : exn) :
  isinstance e JSONDecodeError = true -> isinstance e ValueError = true.
Proof. unfold isinstance. destruct (exn_cls e); cbv; congruence. Qed.

(** X3.  [is_valid_json] answers [True] exactly when [json.loads] returns
    and [False] exactly when it raises a [ValueError], of which a
    [JSONDecodeError] is one; it never raises a [ValueError] itself, and
    any other exception of [json.loads] passes through unchanged. *)
Theorem is_valid_json_verdict
    (json_loads : string -> outcome value) (input_str : string) :
  (is_valid_json json_loads input_str = Ret true
   <-> returns (json_loads input_str))
  /\ (is_valid_json json_loads input_str = Ret false
      <-> exists e, json_loads input_str = Exc e
                    /\ isinstance e ValueError = true)
  /\ (decode_fails json_loads input_str ->
      is_valid_json json_loads input_str = Ret false)
  /\ (forall e, is_valid_json json_loads input_str = Exc e ->
        json_loads input_str = Exc e /\ isinstance e ValueError = false).
Proof.
  unfold is_valid_json, returns, decode_fails.
  destruct (json_loads input_str) as [v | e |] eqn:Hload; simpl.
  - split; [split; [intros _; exists v; reflexivity | reflexivity] |].
    split; [split; [discriminate | intros [e [H _]]; discriminate] |].
    split; [intros [e [H _]]; discriminate | discriminate].
  - destruct (isinstance e ValueError) eqn:Hcls.
    + split; [split; [discriminate | intros [v H]; discriminate] |].
      split.
      { split; [intros _; exists e; split; [reflexivity | exact Hcls]
               | reflexivity]. }
      split; [reflexivity | discriminate].
    + split; [split; [discriminate | intros [v H]; discriminate] |].
      split.
      { split; [discriminate |].
        intros [e' [H Hcls']]. injection H as H. subst e'.
        rewrite Hcls in Hcls'. discriminate. }
      split.
      { intros [e' [H Hcls']]. injection H as H. subst e'.
        apply decode_error_is_value_error in Hcls'.
        rewrite Hcls in Hcls'. discriminate. }
      intros e' H. injection H as H. subst e'. split; [reflexivity | exact Hcls].
  - split; [split; [discriminate | intros [v H]; discriminate] |].
    split; [split; [discriminate | intros [e [H _]]; discriminate] |].
    split; [intros [e [H _]]; discriminate | discriminate].
Qed.

(** X4.  A non-empty text that is valid JSON once the suffix is appended is
    not shortened: [complete_json_object] returns what [json.loads] gives
    for [text + suffix], after that single attempt. *)
Theorem complete_json_object_keeps_valid_text
    (json_loads : string -> outcome value) (text suffix : string) :
  text <> ""%string ->
  is_valid_json json_loads (text ++ suffix)%string = Ret true ->
  complete_json_object json_loads text suffix
  = json_loads (text ++ suffix)%string
  /\ parse_attempts json_loads text suffix = [(text ++ suffix)%string].
Proof.
  intros Hne Hvalid.
  unfold complete_json_object, parse_attempts, complete_json_object_run.
  simpl. apply String.eqb_neq in Hne. rewrite Hne.
  unfold is_valid_json in Hvalid.
  destruct (json_loads (text ++ suffix)%string) as [v | e |]; simpl in *.
  - split; reflexivity.
  - destruct (isinstance e ValueError); discriminate.
  - discriminate.
Qed.

(** Witness of X4: the whole object of the examples, with the empty
    suffix. *)
Lemma complete_json_object_keeps_valid_text_witness :
  Examples.whole_object <> ""%string
  /\ is_valid_json JsonRef.loads (Examples.whole_object ++ "")%string
     = Ret true
  /\ complete_json_object JsonRef.loads Examples.whole_object ""
     = JsonRef.loads (Examples.whole_object ++ "")%string
  /\ parse_attempts JsonRef.loads Examples.whole_object ""
     = [(Examples.whole_object ++ "")%string].
Proof.
  assert (H1 : Examples.whole_object <> ""%string) by discriminate.
  assert (H2 : is_valid_json JsonRef.loads (Examples.whole_object ++ "")%string
               = Ret true) by (vm_compute; reflexivity).
  split; [exact H1 |]. split; [exact H2 |].
  exact (complete_json_object_keeps_valid_text JsonRef.loads
           Examples.whole_object "" H1 H2).
Defined.

(** ** [get_combinations]: how many strings, and how the bound extends them *)

Lemma product_repeat_length {A : Type} (pool : list A) (i : nat) :
  List.length (product_repeat pool i) = (List.length pool ^ i)%nat.
Proof.
  induction i as [| i IH]; [reflexivity |].
  simpl product_repeat. rewrite Nat.pow_succ_r', <- IH.
  generalize (product_repeat pool i) as tuples. clear IH. intros tuples.
  induction pool as [| x pool IHpool]; [reflexivity |].
  simpl. rewrite length_app, length_map, IHpool. reflexivity.
Qed.

(** The last mark of a tuple is not affected by a mark put in front of a
    non-empty tuple. *)
Lemma keeps_cons (e : option string) (x : string) (comb : list string) :
  comb <> [] -> keeps e (x :: comb) = keeps e comb.
Proof.
  intros Hne. unfold keeps. destruct e as [m |]; [| reflexivity].
  simpl. destruct (rev comb) as [| y r] eqn:Hrev; [| reflexivity].
  exfalso. apply Hne. rewrite <- (rev_involutive comb), Hrev. reflexivity.
Qed.

Lemma filter_keeps_cons (e : option string) (x : string)
    (tuples : list (list string)) :
  Forall (fun comb => comb <> []) tuples ->
  List.length (filter (keeps e) (map (cons x) tuples))
  = List.length (filter (keeps e) tuples).
Proof.
  induction 1 as [| comb tuples Hcomb _ IH]; [reflexivity |].
  simpl. rewrite (keeps_cons e x comb Hcomb).
  destruct (keeps e comb); simpl; rewrite IH; reflexivity.
Qed.

Lemma count_kept_singletons (m : string) (pool : list string) :
  List.length (filter (keeps (Some m)) (product_repeat pool 1))
  = count_occ string_dec pool m.
Proof.
  induction pool as [| x pool IH]; [reflexivity |].
  change (product_repeat (x :: pool) 1) with ([x] :: product_repeat pool 1).
  set (rest := product_repeat pool 1) in *.
  cbn [filter keeps rev app count_occ].
  destruct (string_dec x m) as [Heq | Hne].
  - apply String.eqb_eq in Heq. rewrite Heq. simpl. rewrite IH. reflexivity.
  - apply String.eqb_neq in Hne. rewrite Hne. exact IH.
Qed.

Lemma count_kept (m : string) (pool : list string) (i : nat) :
  List.length (filter (keeps (Some m)) (product_repeat pool (S i)))
  = (count_occ string_dec pool m * List.length pool ^ i)%nat.
Proof.
  induction i as [| i IH].
  - rewrite count_kept_singletons. simpl. lia.
  - change (product_repeat pool (S (S i)))
      with (flat_map (fun x => map (cons x) (product_repeat pool (S i))) pool).
    assert (Hne : Forall (fun comb : list string => comb <> [])
                    (product_repeat pool (S i))).
    { apply Forall_forall. intros comb Hin. apply in_product_repeat in Hin.
      destruct Hin as [Hlen _]. intros Heq. subst comb. discriminate. }
    revert IH Hne. generalize (product_repeat pool (S i)) as tuples.
    intros tuples IH Hne.
    assert (Hsum : forall l : list string,
               List.length
                 (filter (keeps (Some m))
                    (flat_map (fun x => map (cons x) tuples) l))
               = (List.length l
                  * List.length (filter (keeps (Some m)) tuples))%nat).
    { induction l as [| x l IHl]; [reflexivity |].
      cbn [flat_map]. rewrite filter_app, length_app, IHl.
      rewrite (filter_keeps_cons _ _ _ Hne). reflexivity. }
    rewrite Hsum, IH, Nat.pow_succ_r'. lia.
Qed.

Lemma kept_tuples_length_from (m : string) (pool : list string) (k : nat) :
  forall a,
    List.length
      (flat_map (fun i => filter (keeps (Some m)) (product_repeat pool i))
         (seq (S a) k))
    = (count_occ string_dec pool m
       * list_sum (map (Nat.pow (List.length pool)) (seq a k)))%nat.
Proof.
  induction k as [| k IH]; intros a; simpl seq.
  - simpl. lia.
  - cbn [flat_map map].
    rewrite length_app, count_kept, IH. simpl list_sum.
    rewrite Nat.mul_add_distr_l. reflexivity.
Qed.

Lemma get_combinations_length_eq (candidate_marks : list string) (n : Z)
    (should_end_mark : string) :
  List.length (get_combinations candidate_marks n (Some should_end_mark))
  = (count_occ string_dec candidate_marks should_end_mark
     * geometric_sum (List.length candidate_marks) (Z.to_nat n))%nat.
Proof.
  unfold get_combinations, kept_tuples, geometric_sum.
  rewrite length_map. apply kept_tuples_length_from.
Qed.

Lemma all_tuples_length_from {A : Type} (pool : list A) (k : nat) :
  forall a,
    List.length (flat_map (product_repeat pool) (seq (S a) k))
    = (List.length pool
       * list_sum (map (Nat.pow (List.length pool)) (seq a k)))%nat.
Proof.
  induction k as [| k IH]; intros a; simpl seq.
  - simpl. lia.
  - cbn [flat_map map].
    rewrite length_app, product_repeat_length, IH. simpl list_sum.
    rewrite Nat.mul_add_distr_l, Nat.pow_succ_r'. reflexivity.
Qed.

(** X5.  With a required end mark, the number of strings returned is the
    number of times that mark occurs among the candidate marks, times
    [1 + m + ... + m^(n-1)] for [m] candidate marks; without one it is
    [m + ... + m^n]. *)
Theorem get_combinations_length (candidate_marks : list string) (n : Z)
    (should_end_mark : string) :
  List.length (get_combinations candidate_marks n (Some should_end_mark))
  = (count_occ string_dec candidate_marks should_end_mark
     * geometric_sum (List.length candidate_marks) (Z.to_nat n))%nat
  /\ List.length (get_combinations candidate_marks n None)
     = (List.length candidate_marks
        * geometric_sum (List.length candidate_marks) (Z.to_nat n))%nat.
Proof.
  split; [apply get_combinations_length_eq |].
  unfold get_combinations, kept_tuples, geometric_sum. rewrite length_map.
  rewrite <- all_tuples_length_from. f_equal.
  apply flat_map_ext. intros i. simpl.
  induction (product_repeat candidate_marks i) as [| t ts IH];
    [reflexivity | simpl; f_equal; exact IH].
Qed.

Lemma geometric_sum_two (n : nat) : (geometric_sum 2 n + 1 = 2 ^ n)%nat.
Proof.
  unfold geometric_sum. induction n as [| n IH]; [reflexivity |].
  rewrite seq_S, map_app, list_sum_app. simpl list_sum.
  rewrite Nat.pow_succ_r'. simpl Nat.add at 2. lia.
Qed.

Lemma geometric_sum_mono (m m' n : nat) :
  (m <= m')%nat -> (geometric_sum m n <= geometric_sum m' n)%nat.
Proof.
  intros Hm. unfold geometric_sum. generalize 0%nat as a.
  induction n as [| n IH]; intros a; simpl; [lia |].
  specialize (IH (S a)).
  pose proof (Nat.pow_le_mono_l m m' a Hm). lia.
Qed.

(** The marks selected for a text: what is in the list. *)
Lemma candidate_marks_of_cases (text : string) :
  candidate_marks_of text
  = (if contains "{" text then ["}"] else [])
    ++ (if contains "[" text then ["]"] else []).
Proof.
  unfold candidate_marks_of.
  destruct (contains "[" text); destruct (contains "{" text); reflexivity.
Qed.

(** X6.  For the marks [get_possible_completions] selects, whatever the
    text and the end mark, at most [2^n - 1] completion strings are
    generated for the bound [n]: 31 for the default bound 5. *)
Theorem completion_strings_bound (text : string) (n : Z)
    (should_end_mark : string) :
  (List.length
     (get_combinations (candidate_marks_of text) n (Some should_end_mark))
   <= 2 ^ Z.to_nat n - 1)%nat.
Proof.
  rewrite get_combinations_length_eq.
  pose proof (geometric_sum_two (Z.to_nat n)) as Htwo.
  assert (Hcount : (count_occ string_dec (candidate_marks_of text)
                      should_end_mark <= 1)%nat
                   /\ (List.length (candidate_marks_of text) <= 2)%nat).
  { rewrite candidate_marks_of_cases.
    destruct (contains "{" text); destruct (contains "[" text);
      cbn [app count_occ List.length];
      repeat match goal with
             | |- context [string_dec ?a ?b] => destruct (string_dec a b)
             end; try congruence; split; lia. }
  destruct Hcount as [Hcount Hlen].
  pose proof (geometric_sum_mono _ 2 (Z.to_nat n) Hlen) as Hmono.
  nia.
Qed.

(** X7.  Raising the bound by one only appends: the strings for [n + 1]
    are the strings for [n], followed by the joins of tuples of [n + 1]
    marks. *)
Theorem get_combinations_extends (candidate_marks : list string) (n : Z)
    (should_end_mark : option string) :
  (0 <= n)%Z ->
  exists longer : list (list string),
    get_combinations candidate_marks (n + 1) should_end_mark
    = get_combinations candidate_marks n should_end_mark ++ map join longer
    /\ Forall (fun comb => Z.of_nat (List.length comb) = (n + 1)%Z) longer.
Proof.
  intros Hn.
  exists (filter (keeps should_end_mark)
            (product_repeat candidate_marks (S (Z.to_nat n)))).
  split.
  - unfold get_combinations, kept_tuples.
    replace (Z.to_nat (n + 1)) with (S (Z.to_nat n)) by lia.
    rewrite seq_S, flat_map_app, map_app. simpl. rewrite app_nil_r.
    reflexivity.
  - apply Forall_forall. intros comb Hin. apply filter_In in Hin.
    destruct Hin as [Hin _]. apply in_product_repeat in Hin. lia.
Qed.

(** Witness of X7: from the bound 1 to the bound 2. *)
Lemma get_combinations_extends_witness :
  (0 <= 1)%Z
  /\ exists longer : list (list string),
       get_combinations ["}"; "]"] (1 + 1) (Some "}")
       = get_combinations ["}"; "]"] 1 (Some "}") ++ map join longer
       /\ Forall (fun comb => Z.of_nat (List.length comb) = (1 + 1)%Z) longer.
Proof.
  split; [lia |].
  apply (get_combinations_extends ["}"; "]"] 1 (Some "}")). lia.
Defined.

(** ** Which texts get no completion string *)

Lemma lstrip_chars_incl (l : list ascii) (x : ascii) :
  In x (lstrip_chars l) -> In x l.
Proof.
  induction l as [| c l IH]; simpl; [tauto |].
  destruct (isspace c); [intros H; right; apply IH; exact H | tauto].
Qed.

Lemma strip_incl (s : string) (x : ascii) :
  In x (chars (strip s)) -> In x (chars s).
Proof.
  unfold strip. rewrite chars_str_of. intros H.
  apply in_rev in H. apply lstrip_chars_incl in H. apply in_rev in H.
  apply lstrip_chars_incl in H. exact H.
Qed.

Lemma should_end_mark_cases (text m : string) :
  should_end_mark_of text = Ret m ->
  (m = "]" /\ contains "[" text = true) \/ m = "}".
Proof.
  unfold should_end_mark_of.
  destruct (chars (strip text)) as [| c rest] eqn:Hstrip; [discriminate |].
  intros H. injection H as H. destruct (Ascii.eqb c "[") eqn:Hc.
  - left. split; [symmetry; exact H |].
    apply Ascii.eqb_eq in Hc. subst c.
    apply existsb_exists. exists "["%char. split; [| reflexivity].
    apply strip_incl. rewrite Hstrip. left. reflexivity.
  - right. symmetry. exact H.
Qed.

(** X8.  In [get_possible_completions] there is no completion string to
    try exactly when the bound is below 1, or the end mark is the closing
    brace while the text holds no opening brace: a text that holds a
    bracket but no brace and does not start with the bracket is never
    completed. *)
Theorem no_completion_string (text should_end_mark : string) (n : Z) :
  should_end_mark_of text = Ret should_end_mark ->
  (get_combinations (candidate_marks_of text) n (Some should_end_mark) = []
   <-> (n <= 0)%Z
       \/ (should_end_mark = "}" /\ contains "{" text = false)).
Proof.
  intros Hmark. unfold get_combinations. split.
  - intros Hnil.
    destruct (Z_le_gt_dec n 0) as [Hn | Hn]; [left; exact Hn |]. right.
    assert (Hnot : ~ In should_end_mark (candidate_marks_of text)).
    { intros Hin.
      assert (Hone : In [should_end_mark]
                       (kept_tuples (candidate_marks_of text) n
                          (Some should_end_mark))).
      { apply in_kept_tuples. split; [simpl; lia |]. split.
        - constructor; [exact Hin | constructor].
        - simpl. apply String.eqb_refl. }
      apply (in_map join) in Hone. rewrite Hnil in Hone. exact Hone. }
    rewrite candidate_marks_of_cases in Hnot.
    destruct (should_end_mark_cases _ _ Hmark) as [[Hm Hbracket] | Hm];
      subst should_end_mark.
    + exfalso. apply Hnot. rewrite Hbracket. apply in_or_app. right.
      left. reflexivity.
    + split; [reflexivity |]. destruct (contains "{" text); [| reflexivity].
      exfalso. apply Hnot. left. reflexivity.
  - intros Hcase.
    destruct (kept_tuples (candidate_marks_of text) n (Some should_end_mark))
      as [| comb rest] eqn:Hkept; [reflexivity |].
    exfalso.
    assert (Hin : In comb (kept_tuples (candidate_marks_of text) n
                             (Some should_end_mark)))
      by (rewrite Hkept; left; reflexivity).
    apply in_kept_tuples in Hin. destruct Hin as [Hlen [Hall Hlast]].
    destruct Hcase as [Hn | [Hm Hbrace]]; [lia |].
    subst should_end_mark. apply keeps_iff in Hlast.
    destruct Hlast as [front Hfront]. subst comb.
    apply Forall_app in Hall. destruct Hall as [_ Hall].
    inversion Hall as [| ? ? Hin _]; subst.
    rewrite candidate_marks_of_cases, Hbrace in Hin. simpl in Hin.
    destruct (contains "[" text); simpl in Hin.
    + destruct Hin as [Hin | []]. discriminate.
    + exact Hin.
Qed.

(** Witness of X8: a list that follows a word. *)
Lemma no_completion_string_witness :
  should_end_mark_of "x = [1, 2" = Ret "}"
  /\ get_combinations (candidate_marks_of "x = [1, 2") 5 (Some "}") = [].
Proof.
  assert (H : should_end_mark_of "x = [1, 2" = Ret "}") by reflexivity.
  split; [exact H |].
  apply (proj2 (no_completion_string "x = [1, 2" "}" 5 H)).
  right. split; reflexivity.
Defined.

(** ** What [fit] hands to the completion search *)

Lemma drop_while_split (p : ascii -> bool) (l : list ascii) :
  exists dropped,
    l = dropped ++ drop_while p l
    /\ Forall (fun c => p c = true) dropped
    /\ match drop_while p l with
       | c :: _ => p c = false
       | [] => True
       end.
Proof.
  induction l as [| c l IH]; simpl.
  - exists []. repeat split. constructor.
  - destruct (p c) eqn:Hc.
    + destruct IH as [dropped [Heq [Hall Hhead]]].
      exists (c :: dropped). split; [simpl; f_equal; exact Heq |].
      split; [constructor; assumption | exact Hhead].
    + exists []. split; [reflexivity |]. split; [constructor | exact Hc].
Qed.

Lemma drop_while_fixed (p : ascii -> bool) (l : list ascii) :
  match l with
  | c :: _ => p c = false
  | [] => True
  end ->
  drop_while p l = l.
Proof. destruct l as [| c l]; simpl; [reflexivity |]. intros ->. reflexivity. Qed.


(** X9.  The text [fit] passes on after [re.sub] is the input without its
    longest trailing run of brackets, braces and whitespace: it is a prefix
    of the input, what was cut holds only such characters, what is left
    does not end with one, and cutting again changes nothing. *)
Theorem strip_trailing_brackets_cuts_the_tail (json_str : string) :
  (exists cut,
     json_str = (strip_trailing_brackets json_str ++ cut)%string
     /\ Forall (fun c => bracket_or_space c = true) (chars cut))
  /\ (forall c, last_char (strip_trailing_brackets json_str) = Some c ->
                bracket_or_space c = false)
  /\ strip_trailing_brackets (strip_trailing_brackets json_str)
     = strip_trailing_brackets json_str.
Proof.
  unfold strip_trailing_brackets, last_char.
  destruct (drop_while_split bracket_or_space (rev (chars json_str)))
    as [dropped [Heq [Hall Hhead]]].
  split; [| split].
  - exists (str_of (rev dropped)). split.
    + rewrite <- str_of_app, <- rev_app_distr, <- Heq, rev_involutive.
      symmetry. apply str_of_chars.
    + rewrite chars_str_of. apply Forall_rev. exact Hall.
  - intros c. rewrite chars_str_of, rev_involutive.
    destruct (drop_while bracket_or_space (rev (chars json_str)))
      as [| c' rest]; [discriminate |].
    intros H. injection H as H. subst c'. exact Hhead.
  - rewrite chars_str_of, rev_involutive.
    rewrite (drop_while_fixed _ _ Hhead). reflexivity.
Qed.








(** ** [extract_complete_objects]: what is evaluated *)

Lemma leaf_body_flat (opening closing : ascii) (escapable : bool)
    (l : list ascii) :
  forall prev k,
    leaf_body opening closing escapable prev l = Some k ->
    exists inner,
      firstn k l = inner ++ [closing]
      /\ Forall (fun c => c <> opening /\ c <> closing) inner.
Proof.
  induction l as [| c rest IH]; intros prev k; simpl; [discriminate |].
  destruct (Ascii.eqb c closing) eqn:Hc.
  - apply Ascii.eqb_eq in Hc. subst c.
    destruct (escapable && Ascii.eqb prev "\"); [discriminate |].
    intros H. injection H as H. subst k. exists [].
    split; [reflexivity | constructor].
  - destruct (Ascii.eqb c opening) eqn:Ho; [discriminate |].
    destruct (leaf_body opening closing escapable c rest) as [k' |] eqn:Hrec;
      [| discriminate].
    intros H. injection H as H. subst k.
    destruct (IH c k' Hrec) as [inner [Hfirst Hall]].
    exists (c :: inner). split; [simpl; rewrite Hfirst; reflexivity |].
    constructor; [| exact Hall].
    apply Ascii.eqb_neq in Hc. apply Ascii.eqb_neq in Ho. split; assumption.
Qed.

Lemma object_regex_group_flat (l : list ascii) (len : nat) :
  object_regex_group l = Some len ->
  flat_group "[" "]" (str_of (firstn len l))
  \/ flat_group "{" "}" (str_of (firstn len l)).
Proof.
  unfold object_regex_group, flat_group. intros H.
  destruct l as [| c rest]; [discriminate |].
  destruct (Ascii.eqb c "[") eqn:Hc1.
  - apply Ascii.eqb_eq in Hc1. subst c.
    destruct (leaf_body "[" "]" true "[" rest) as [k |] eqn:Hk;
      [| discriminate].
    injection H as H. subst len.
    destruct (leaf_body_flat _ _ _ _ _ _ Hk) as [inner [Hfirst Hall]].
    left. exists inner. rewrite chars_str_of. simpl. rewrite Hfirst.
    split; [reflexivity | exact Hall].
  - destruct (Ascii.eqb c "{") eqn:Hc2.
    + apply Ascii.eqb_eq in Hc2. subst c.
      destruct (leaf_body "{" "}" false "{" rest) as [k |] eqn:Hk;
        [| discriminate].
      injection H as H. subst len.
      destruct (leaf_body_flat _ _ _ _ _ _ Hk) as [inner [Hfirst Hall]].
      right. exists inner. rewrite chars_str_of. simpl. rewrite Hfirst.
      split; [reflexivity | exact Hall].
    + exfalso. revert H Hc1 Hc2.
      destruct c as [[] [] [] [] [] [] [] []]; simpl; discriminate.
Qed.

Lemma object_regex_at_group (prev : option ascii) (l : list ascii) (len : nat) :
  object_regex_at prev l = Some len -> object_regex_group l = Some len.
Proof.
  unfold object_regex_at. destruct prev as [c |]; [| tauto].
  destruct (Ascii.eqb c "\"); [discriminate | tauto].
Qed.

Lemma skipn_tail {A : Type} (pos : nat) (l : list A) (c : A) (rest : list A) :
  skipn pos l = c :: rest -> skipn (S pos) l = rest.
Proof.
  revert l. induction pos as [| pos IH]; intros l H.
  - simpl in H. subst l. reflexivity.
  - destruct l as [| x l]; [discriminate |]. simpl in H. apply IH in H.
    exact H.
Qed.

(** Every match is a flat group, and its group is the text between its
    offsets. *)
Lemma finditer_from_groups (text : string) (l : list ascii) :
  forall pos prev skip,
    skipn pos (chars text) = l ->
    Forall (fun m =>
              m_group m = slice text (m_start m) (m_end m)
              /\ (flat_group "[" "]" (m_group m)
                  \/ flat_group "{" "}" (m_group m)))
      (finditer_from pos prev skip l).
Proof.
  induction l as [| c rest IH]; intros pos prev skip Hl; simpl;
    [constructor |].
  pose proof (skipn_tail _ _ _ _ Hl) as Hrest.
  destruct skip as [| k]; [| apply IH; exact Hrest].
  destruct (object_regex_at prev (c :: rest)) as [len |] eqn:Hm;
    [| apply IH; exact Hrest].
  constructor; [| apply IH; exact Hrest].
  simpl. split.
  - unfold slice. rewrite Hl.
    replace (pos + len - pos)%nat with len by lia. reflexivity.
  - apply object_regex_group_flat. apply (object_regex_at_group prev).
    exact Hm.
Qed.

Lemma object_strings_are_the_groups (text : string) :
  object_strings (scan text) = map m_group (finditer text).
Proof.
  rewrite (proj1 (scan_emits_every_match text)).
  apply map_ext_in. intros m Hm.
  pose proof (finditer_from_groups text (chars text) 0 None 0 eq_refl) as Hall.
  rewrite Forall_forall in Hall. symmetry. apply (Hall m Hm).
Qed.

(** X12.  The strings [extract_complete_objects] evaluates are the groups
    of the matches of its pattern, one for each match and in their order,
    and each is flat: [[ ... ]] with no bracket inside, or [{ ... }] with
    no brace inside.  A list nested in a list, or an object nested in an
    object, is therefore never evaluated as a whole. *)
Theorem extracted_strings_are_flat (text : string) :
  object_strings (scan text) = map m_group (finditer text)
  /\ Forall (fun s => flat_group "[" "]" s \/ flat_group "{" "}" s)
       (object_strings (scan text)).
Proof.
  split; [apply object_strings_are_the_groups |].
  rewrite object_strings_are_the_groups. apply Forall_map.
  eapply Forall_impl;
    [| apply (finditer_from_groups text (chars text) 0 None 0 eq_refl)].
  intros m [_ H]. exact H.
Qed.

(** ** [extract_complete_objects]: what is returned and printed *)

Section SecondLoop.
Variable literal_eval : string -> outcome value.

Lemma evaluate_objects_through (strings rest : list string) :
  Forall (evaluates_or_is_caught literal_eval) strings ->
  forall objects printed,
    evaluate_objects literal_eval (strings ++ rest) objects printed
    = evaluate_objects literal_eval rest
        (objects ++ evaluated literal_eval strings)
        (printed ++ notices literal_eval strings).
Proof.
  induction 1 as [| s strings Hs _ IH]; intros objects printed; simpl.
  - rewrite !app_nil_r. reflexivity.
  - unfold evaluates_or_is_caught, caught_on_evaluation in Hs.
    unfold evaluated, notices. cbn [flat_map].
    destruct (literal_eval s) as [obj | e |]; [| | contradiction].
    + rewrite IH. unfold evaluated, notices. simpl.
      rewrite <- app_assoc. reflexivity.
    + rewrite Hs, IH. unfold evaluated, notices, evaluation_notice. simpl.
      rewrite <- app_assoc. reflexivity.
Qed.

Lemma evaluated_and_notices_count (strings : list string) :
  Forall (evaluates_or_is_caught literal_eval) strings ->
  (List.length (evaluated literal_eval strings)
   + List.length (notices literal_eval strings))%nat
  = List.length strings.
Proof.
  induction 1 as [| s strings Hs _ IH]; [reflexivity |].
  unfold evaluated, notices in *. cbn [flat_map].
  unfold evaluates_or_is_caught in Hs.
  destruct (literal_eval s); [| | contradiction];
    rewrite !length_app; simpl; lia.
Qed.
End SecondLoop.

(** X13.  When [ast.literal_eval] returns, or raises a [ValueError] or a
    [SyntaxError], on every matched group, [extract_complete_objects]
    returns the values of the groups that evaluate, in order, and prints
    one line for each group that does not and nothing else: a bad group is
    skipped, it does not end the scan. *)
Theorem extract_skips_bad_groups
    (literal_eval : string -> outcome value) (text : string) :
  let strings := map m_group (finditer text) in
  Forall (evaluates_or_is_caught literal_eval) strings ->
  extract_complete_objects literal_eval text
  = (notices literal_eval strings, Ret (evaluated literal_eval strings))
  /\ (List.length (evaluated literal_eval strings)
      + List.length (notices literal_eval strings))%nat
     = List.length (finditer text).
Proof.
  intros strings Hall. split.
  - unfold extract_complete_objects.
    rewrite (proj2 (scan_emits_every_match text)).
    rewrite object_strings_are_the_groups. fold strings.
    rewrite <- (app_nil_r strings) at 1.
    rewrite (evaluate_objects_through literal_eval strings [] Hall).
    reflexivity.
  - rewrite (evaluated_and_notices_count literal_eval strings Hall).
    unfold strings. apply length_map.
Qed.

(** Witness of X13: a list, a list with an unterminated string, a list. *)
Lemma extract_skips_bad_groups_witness :
  let text := "[1] ['a] [2]" in
  let strings := map m_group (finditer text) in
  Forall (evaluates_or_is_caught PyRef.literal_eval) strings
  /\ extract_complete_objects PyRef.literal_eval text
     = (notices PyRef.literal_eval strings,
        Ret (evaluated PyRef.literal_eval strings))
  /\ evaluated PyRef.literal_eval strings = [VList [VInt 1]; VList [VInt 2]]
  /\ List.length (notices PyRef.literal_eval strings) = 1%nat.
Proof.
  intros text strings.
  assert (H : Forall (evaluates_or_is_caught PyRef.literal_eval) strings).
  { subst strings text. vm_compute. repeat constructor. }
  split; [exact H |].
  split; [exact (proj1 (extract_skips_bad_groups PyRef.literal_eval text H)) |].
  split; vm_compute; reflexivity.
Defined.

(** X14.  An exception of [ast.literal_eval] that is neither a
    [ValueError] nor a [SyntaxError] is not caught: it leaves
    [extract_complete_objects], and the objects found before it are lost.
    Only the lines printed for earlier groups remain. *)
Theorem extract_stops_at_uncaught
    (literal_eval : string -> outcome value) (text : string)
    (before after : list string) (s : string) (e : exn) :
  map m_group (finditer text) = before ++ s :: after ->
  Forall (evaluates_or_is_caught literal_eval) before ->
  literal_eval s = Exc e ->
  caught_on_evaluation e = false ->
  extract_complete_objects literal_eval text
  = (notices literal_eval before, Exc e).
Proof.
  intros Hsplit Hbefore Heval Hcls. unfold extract_complete_objects.
  rewrite (proj2 (scan_emits_every_match text)).
  rewrite object_strings_are_the_groups, Hsplit.
  rewrite (evaluate_objects_through literal_eval before (s :: after) Hbefore).
  simpl. rewrite Heval. unfold caught_on_evaluation in Hcls. rewrite Hcls.
  reflexivity.
Qed.

(** Witness of X14: an object, then an object whose key is a list. *)
Lemma extract_stops_at_uncaught_witness :
  let first := ("{" ++ quoted "a" ++ ":1}")%string in
  let text := (first ++ "{[1]: 2}")%string in
  map m_group (finditer text) = [first] ++ "{[1]: 2}" :: []
  /\ PyRef.literal_eval first = Ret (VDict [(VStr "a", VInt 1)])
  /\ PyRef.literal_eval "{[1]: 2}"
     = raise TypeError "unhashable type: 'list'"
  /\ extract_complete_objects PyRef.literal_eval text
     = (notices PyRef.literal_eval [first],
        raise TypeError "unhashable type: 'list'").
Proof.
  intros first text.
  assert (H1 : map m_group (finditer text) = [first] ++ "{[1]: 2}" :: [])
    by (vm_compute; reflexivity).
  assert (H2 : Forall (evaluates_or_is_caught PyRef.literal_eval) [first])
    by (vm_compute; repeat constructor).
  assert (H3 : PyRef.literal_eval "{[1]: 2}"
               = raise TypeError "unhashable type: 'list'")
    by (vm_compute; reflexivity).
  split; [exact H1 |]. split; [vm_compute; reflexivity |].
  split; [exact H3 |].
  exact (extract_stops_at_uncaught PyRef.literal_eval text [first] []
           "{[1]: 2}" _ H1 H2 H3 eq_refl).
Defined.

(** ** [extract_complete_objects]: texts without a closing bracket *)

Lemma leaf_body_needs_closing (opening closing : ascii) (escapable : bool)
    (l : list ascii) :
  ~ In closing l ->
  forall prev, leaf_body opening closing escapable prev l = None.
Proof.
  induction l as [| c rest IH]; intros Hnot prev; simpl; [reflexivity |].
  destruct (Ascii.eqb c closing) eqn:Hc.
  - apply Ascii.eqb_eq in Hc. subst c. exfalso. apply Hnot. left. reflexivity.
  - destruct (Ascii.eqb c opening); [reflexivity |].
    rewrite IH; [reflexivity |]. intros Hin. apply Hnot. right. exact Hin.
Qed.

Lemma object_regex_at_needs_closing (prev : option ascii) (l : list ascii) :
  ~ In "]"%char l -> ~ In "}"%char l -> object_regex_at prev l = None.
Proof.
  intros H1 H2.
  assert (Hgroup : object_regex_group l = None).
  { unfold object_regex_group. destruct l as [| c rest]; [reflexivity |].
    assert (Hr1 : ~ In "]"%char rest) by (intros H; apply H1; right; exact H).
    assert (Hr2 : ~ In "}"%char rest) by (intros H; apply H2; right; exact H).
    rewrite (leaf_body_needs_closing "[" "]" true rest Hr1).
    rewrite (leaf_body_needs_closing "{" "}" false rest Hr2).
    destruct c as [[] [] [] [] [] [] [] []]; reflexivity. }
  unfold object_regex_at. destruct prev as [c |]; [| exact Hgroup].
  destruct (Ascii.eqb c "\"); [reflexivity | exact Hgroup].
Qed.

Lemma finditer_from_needs_closing (l : list ascii) :
  ~ In "]"%char l -> ~ In "}"%char l ->
  forall pos prev skip, finditer_from pos prev skip l = [].
Proof.
  induction l as [| c rest IH]; intros H1 H2 pos prev skip; simpl;
    [reflexivity |].
  assert (Hr1 : ~ In "]"%char rest) by (intros H; apply H1; right; exact H).
  assert (Hr2 : ~ In "}"%char rest) by (intros H; apply H2; right; exact H).
  destruct skip as [| k]; [| apply IH; assumption].
  rewrite (object_regex_at_needs_closing prev (c :: rest) H1 H2).
  apply IH; assumption.
Qed.

Lemma not_contains (c : ascii) (s : string) :
  contains c s = false -> ~ In c (chars s).
Proof.
  unfold contains. intros H Hin.
  assert (Ht : existsb (Ascii.eqb c) (chars s) = true)
    by (apply existsb_exists; exists c; split;
        [exact Hin | apply Ascii.eqb_refl]).
  rewrite H in Ht. discriminate.
Qed.

(** X15.  From a text with no closing bracket and no closing brace
    [extract_complete_objects] returns the empty list and prints nothing,
    whatever else the text holds: an object that is still open leaves no
    trace. *)
Theorem extract_needs_a_closing_bracket
    (literal_eval : string -> outcome value) (text : string) :
  contains "]" text = false ->
  contains "}" text = false ->
  finditer text = []
  /\ extract_complete_objects literal_eval text = ([], Ret []).
Proof.
  intros H1 H2. apply not_contains in H1. apply not_contains in H2.
  assert (Hnone : finditer text = [])
    by (apply finditer_from_needs_closing; assumption).
  split; [exact Hnone |].
  unfold extract_complete_objects, scan. rewrite Hnone. reflexivity.
Qed.

(** Witness of X15: the dangling object of the examples. *)
Lemma extract_needs_a_closing_bracket_witness :
  contains "]" Examples.dangling_object = false
  /\ contains "}" Examples.dangling_object = false
  /\ finditer Examples.dangling_object = []
  /\ extract_complete_objects PyRef.literal_eval Examples.dangling_object
     = ([], Ret []).
Proof.
  split; [reflexivity |]. split; [reflexivity |].
  exact (extract_needs_a_closing_bracket PyRef.literal_eval
           Examples.dangling_object eq_refl eq_refl).
Defined.

(** ** [find_max_length]: which element is the completion *)

Section Completion.
Context {A : Type}.
Variable strlen : A -> nat.

Lemma next_with_split (m : nat) (l : list A) (c : A) :
  next_with strlen m l = Ret c ->
  exists front back,
    l = front ++ c :: back
    /\ Forall (fun a => strlen a <> m) front
    /\ strlen c = m.
Proof.
  induction l as [| x l IH]; simpl; [discriminate |].
  destruct (strlen x =? m)%nat eqn:Hx.
  - intros H. injection H as H. subst x. exists [], l.
    split; [reflexivity |]. split; [constructor |].
    apply Nat.eqb_eq. exact Hx.
  - intros H. destruct (IH H) as [front [back [Heq [Hfront Hc]]]].
    exists (x :: front), back. split; [simpl; f_equal; exact Heq |].
    split; [| exact Hc]. constructor; [| exact Hfront].
    apply Nat.eqb_neq. exact Hx.
Qed.

(** What [find_max_length] returns, by its parts. *)
Lemma find_max_length_parts (l : list A) (r : ranked A) :
  find_max_length strlen l = Ret r ->
  exists m,
    max_of strlen l = Ret m
    /\ next_with strlen m l = Ret (completion r)
    /\ suggestions r = sorted_desc strlen l.
Proof.
  unfold find_max_length.
  destruct (max_of strlen l) as [m | e |]; simpl; try discriminate.
  destruct (next_with strlen m l) as [c | e |] eqn:Hnext; simpl;
    try discriminate.
  intros H. injection H as H. subst r. exists m.
  split; [reflexivity |]. split; [exact Hnext | reflexivity].
Qed.

(** On a list that is already in order, [find_max_length] returns its head
    and the list itself. *)
Lemma sorted_desc_fixed (l : list A) :
  StronglySorted (not_shorter strlen) l -> sorted_desc strlen l = l.
Proof.
  induction 1 as [| x rest Hrest IH Hx]; [reflexivity |].
  simpl. rewrite IH. destruct rest as [| y rest']; [reflexivity |].
  simpl. inversion Hx as [| ? ? Hy _]; subst. unfold not_shorter in Hy.
  apply Nat.leb_le in Hy. rewrite Hy. reflexivity.
Qed.

Lemma fold_max_of_smaller (rest : list A) (m : nat) :
  Forall (fun y => (strlen y <= m)%nat) rest ->
  fold_left (fun k y => Nat.max k (strlen y)) rest m = m.
Proof.
  induction 1 as [| y rest Hy _ IH]; [reflexivity |].
  simpl. rewrite Nat.max_l by exact Hy. exact IH.
Qed.

Lemma find_max_length_of_sorted (x : A) (rest : list A) :
  StronglySorted (not_shorter strlen) (x :: rest) ->
  find_max_length strlen (x :: rest) = Ret (mk_ranked x (x :: rest)).
Proof.
  intros Hsorted. unfold find_max_length.
  rewrite (sorted_desc_fixed _ Hsorted).
  inversion Hsorted as [| ? ? _ Hx]; subst.
  simpl. rewrite fold_max_of_smaller by exact Hx.
  simpl. rewrite Nat.eqb_refl. reflexivity.
Qed.
End Completion.

(** X16.  The completion is the first element of the input that has the
    largest rendering length: every element before it is strictly shorter,
    and none after it is longer. *)
Theorem find_max_length_first_longest {A : Type} (strlen : A -> nat)
    (data_list : list A) (r : ranked A) :
  find_max_length strlen data_list = Ret r ->
  exists front back,
    data_list = front ++ completion r :: back
    /\ Forall (fun a => (strlen a < strlen (completion r))%nat) front
    /\ Forall (fun a => (strlen a <= strlen (completion r))%nat) back.
Proof.
  intros Hr.
  destruct (find_max_length_parts strlen _ _ Hr) as [m [Hmax [Hnext _]]].
  destruct (max_of_spec strlen _ _ Hmax) as [Hall _].
  destruct (next_with_split strlen _ _ _ Hnext)
    as [front [back [Heq [Hfront Hc]]]].
  exists front, back. split; [exact Heq |].
  rewrite Heq in Hall. apply Forall_app in Hall.
  destruct Hall as [Hall_front Hall_back].
  inversion Hall_back as [| ? ? _ Hall_back']; subst.
  split; [| exact Hall_back'].
  rewrite Forall_forall in *. intros a Ha.
  specialize (Hfront a Ha). specialize (Hall_front a Ha). simpl in *. lia.
Qed.

(** Witness of X16: two candidates of the same rendering length after a
    shorter one. *)
Lemma find_max_length_first_longest_witness :
  let strlen := fun element : value => String.length (PyRef.str element) in
  let data_list := [VInt 7; VStr "ab"; VInt 12] in
  find_max_length strlen data_list
  = Ret (mk_ranked (VStr "ab") [VStr "ab"; VInt 12; VInt 7])
  /\ exists front back,
       data_list = front ++ VStr "ab" :: back
       /\ Forall (fun a => (strlen a < strlen (VStr "ab"))%nat) front
       /\ Forall (fun a => (strlen a <= strlen (VStr "ab"))%nat) back.
Proof.
  intros strlen data_list.
  assert (H : find_max_length strlen data_list
              = Ret (mk_ranked (VStr "ab") [VStr "ab"; VInt 12; VInt 7]))
    by (vm_compute; reflexivity).
  split; [exact H |].
  exact (find_max_length_first_longest strlen data_list _ H).
Defined.

(** X17.  Ranking is idempotent: applied to the suggestions it returned,
    [find_max_length] returns the same dictionary again. *)
Theorem find_max_length_idempotent {A : Type} (strlen : A -> nat)
    (data_list : list A) (r : ranked A) :
  find_max_length strlen data_list = Ret r ->
  find_max_length strlen (suggestions r) = Ret r.
Proof.
  intros Hr.
  destruct (find_max_length_parts strlen _ _ Hr) as [m [Hmax [Hnext Hsug]]].
  destruct (max_of_spec strlen _ _ Hmax) as [Hall Hwit].
  pose proof (sorted_desc_perm strlen data_list) as Hperm.
  pose proof (sorted_desc_sorted strlen data_list) as Hsorted.
  assert (Hall' : Forall (fun y => (strlen y <= m)%nat)
                    (sorted_desc strlen data_list))
    by (apply (Permutation_Forall Hperm); exact Hall).
  assert (Hwit' : exists y, In y (sorted_desc strlen data_list)
                            /\ strlen y = m).
  { destruct Hwit as [y [Hy Hym]]. exists y. split; [| exact Hym].
    apply (Permutation_in _ Hperm). exact Hy. }
  destruct (head_of_sorted_is_longest strlen _ m Hsorted Hall' Hwit')
    as [x [rest [Hshape Hxm]]].
  assert (Hx : completion r = x).
  { rewrite next_with_filter, <- sorted_desc_stable, Hshape in Hnext.
    simpl in Hnext. unfold has_length in Hnext.
    rewrite Hxm, Nat.eqb_refl in Hnext. injection Hnext as Hnext.
    symmetry. exact Hnext. }
  rewrite Hsug, Hshape. rewrite Hshape in Hsorted.
  rewrite (find_max_length_of_sorted strlen x rest Hsorted).
  destruct r as [c s]. simpl in *. subst c s. rewrite Hshape. reflexivity.
Qed.

(** Witness of X17. *)
Lemma find_max_length_idempotent_witness :
  let strlen := fun element : value => String.length (PyRef.str element) in
  let r := mk_ranked (VStr "ab") [VStr "ab"; VInt 12; VInt 7] in
  find_max_length strlen [VInt 7; VStr "ab"; VInt 12] = Ret r
  /\ find_max_length strlen (suggestions r) = Ret r.
Proof.
  intros strlen r.
  assert (H : find_max_length strlen [VInt 7; VStr "ab"; VInt 12] = Ret r)
    by (vm_compute; reflexivity).
  split; [exact H |].
  exact (find_max_length_idempotent strlen _ r H).
Defined.

(** ** [extract_complete_objects]: where the objects come from *)

Lemma leaf_body_bound (opening closing : ascii) (escapable : bool)
    (l : list ascii) :
  forall prev k,
    leaf_body opening closing escapable prev l = Some k ->
    (1 <= k <= List.length l)%nat.
Proof.
  induction l as [| c rest IH]; intros prev k; simpl; [discriminate |].
  destruct (Ascii.eqb c closing).
  - destruct (escapable && Ascii.eqb prev "\"); [discriminate |].
    intros H. injection H as H. subst k. lia.
  - destruct (Ascii.eqb c opening); [discriminate |].
    destruct (leaf_body opening closing escapable c rest) as [k' |] eqn:Hrec;
      [| discriminate].
    intros H. injection H as H. subst k. specialize (IH c k' Hrec). lia.
Qed.

Lemma object_regex_at_bound (prev : option ascii) (l : list ascii) (len : nat) :
  object_regex_at prev l = Some len -> (2 <= len <= List.length l)%nat.
Proof.
  intros H. apply object_regex_at_group in H. unfold object_regex_group in H.
  destruct l as [| c rest]; [discriminate |].
  assert (Hk : exists o cl esc k,
             leaf_body o cl esc c rest = Some k /\ len = S k).
  { destruct (Ascii.eqb c "[") eqn:Hc1.
    - apply Ascii.eqb_eq in Hc1. subst c.
      destruct (leaf_body "[" "]" true "[" rest) as [k |] eqn:Hk;
        [| discriminate].
      injection H as H. exists "["%char, "]"%char, true, k.
      split; [exact Hk | symmetry; exact H].
    - destruct (Ascii.eqb c "{") eqn:Hc2.
      + apply Ascii.eqb_eq in Hc2. subst c.
        destruct (leaf_body "{" "}" false "{" rest) as [k |] eqn:Hk;
          [| discriminate].
        injection H as H. exists "{"%char, "}"%char, false, k.
        split; [exact Hk | symmetry; exact H].
      + exfalso. revert H Hc1 Hc2.
        destruct c as [[] [] [] [] [] [] [] []]; simpl; discriminate. }
  destruct Hk as [o [cl [esc [k [Hk Hlen]]]]].
  apply leaf_body_bound in Hk. simpl. lia.
Qed.

Lemma finditer_from_offsets (l : list ascii) :
  forall pos prev skip,
    Forall (fun m => (pos + skip <= m_start m)%nat
                     /\ (m_start m < m_end m)%nat
                     /\ (m_end m <= pos + List.length l)%nat)
      (finditer_from pos prev skip l)
    /\ StronglySorted (fun a b => (m_end a <= m_start b)%nat)
         (finditer_from pos prev skip l).
Proof.
  induction l as [| c rest IH]; intros pos prev skip; simpl.
  - split; constructor.
  - destruct skip as [| k].
    + destruct (object_regex_at prev (c :: rest)) as [len |] eqn:Hm.
      * apply object_regex_at_bound in Hm. simpl in Hm.
        destruct (IH (S pos) (Some c) (len - 1)%nat) as [Hall Hsorted].
        split.
        -- constructor; [simpl; lia |].
           eapply Forall_impl; [| exact Hall]. simpl. intros m Hmm. lia.
        -- constructor; [exact Hsorted |].
           eapply Forall_impl; [| exact Hall]. simpl. intros m Hmm. lia.
      * destruct (IH (S pos) (Some c) 0%nat) as [Hall Hsorted].
        split; [| exact Hsorted].
        eapply Forall_impl; [| exact Hall]. simpl. intros m Hmm. lia.
    + destruct (IH (S pos) (Some c) k) as [Hall Hsorted].
      split; [| exact Hsorted].
      eapply Forall_impl; [| exact Hall]. simpl. intros m Hmm. lia.
Qed.

(** X18.  The object strings are cut from the text at the offsets of the
    matches, which lie inside the text, are not empty, come from left to
    right and do not overlap. *)
Theorem extracted_spans_are_disjoint (text : string) :
  object_strings (scan text)
  = map (fun m => slice text (m_start m) (m_end m)) (finditer text)
  /\ Forall (fun m => (m_start m < m_end m <= String.length text)%nat)
       (finditer text)
  /\ StronglySorted (fun a b => (m_end a <= m_start b)%nat) (finditer text).
Proof.
  split; [exact (proj1 (scan_emits_every_match text)) |].
  destruct (finditer_from_offsets (chars text) 0 None 0) as [Hall Hsorted].
  split; [| exact Hsorted].
  eapply Forall_impl; [| exact Hall]. simpl. rewrite length_chars.
  intros m Hm. lia.
Qed.
